(** * tsl::uint_n : a fixed-width unsigned integer stored as machine words

    Shallow embedding of [include/tsl/uint_n.h] and the properties of its
    operations: construction, [operator<<=], [operator&=], [operator--],
    [popcount], [test], [set] and [unset].

    Words are integers in [Z] with the wrap-around of the C++ types written
    out.  Operations that C++ leaves undefined (an out-of-bounds [bits[i]],
    a shift by at least the width of the promoted operand) and the debug
    assertion are outcomes of the [result] monad. *)

From Stdlib Require Import ZArith Lia List Bool Ascii.
From stdpp Require Import base tactics option list numbers.

Local Open Scope Z_scope.

(** ** Outcomes *)

Inductive result (A : Type) : Type :=
| Ok (a : A)          (** normal completion *)
| AssertFailed        (** [assert] aborted (TSL_DEBUG without NDEBUG) *)
| Undefined.          (** undefined behaviour of the C++ abstract machine *)
Arguments Ok {A} a.
Arguments AssertFailed {A}.
Arguments Undefined {A}.

#[global] Instance result_ret : MRet result := @Ok.
#[global] Instance result_bind : MBind result := λ A B f m,
  match m with
  | Ok a => f a
  | AssertFailed => AssertFailed
  | Undefined => Undefined
  end.

(** ** Machine types *)

(** The unsigned types [UINT_TYPE] can be instantiated with. *)
Inductive uint_type := uint8_t | uint16_t | uint32_t | uint64_t.

(** [sizeof(uint_type) * CHAR_BIT] *)
Definition width (T : uint_type) : Z :=
  match T with
  | uint8_t => 8
  | uint16_t => 16
  | uint32_t => 32
  | uint64_t => 64
  end.

(** Width of [int], the type an operand narrower than it is promoted to. *)
Definition INT_WIDTH : Z := 32.

(** Width of the promoted operand of a shift or a bitwise operator. *)
Definition promoted_width (T : uint_type) : Z := Z.max (width T) INT_WIDTH.

(** [size_t] is a 64-bit unsigned type; [sz] is its wrap-around. *)
Definition SIZE_WIDTH : Z := 64.
Definition sz (x : Z) : Z := x mod 2 ^ SIZE_WIDTH.

(** [__builtin_popcountll] / [__popcnt64]: the argument is converted to
    [uint64_t] and its set bits are counted. *)
Fixpoint popcount_pos (p : positive) : Z :=
  match p with
  | xH => 1
  | xO q => popcount_pos q
  | xI q => 1 + popcount_pos q
  end.

Definition builtin_popcount (x : Z) : Z :=
  match x mod 2 ^ 64 with
  | Zpos p => popcount_pos p
  | _ => 0
  end.

(** ** std::array<uint_type, W> *)

Abbreviation storage_type := (list Z).

(** [a.size()] *)
Definition size (a : storage_type) : Z := Z.of_nat (length a).

(** [a[i]] read: undefined outside the array. *)
Definition at_ (a : storage_type) (i : Z) : result Z :=
  if (0 <=? i) && (i <? size a)
  then match a !! Z.to_nat i with Some w => Ok w | None => Undefined end
  else Undefined.

(** [a[i] = w]: undefined outside the array. *)
Definition store (a : storage_type) (i : Z) (w : Z) : result storage_type :=
  if (0 <=? i) && (i <? size a)
  then Ok (<[Z.to_nat i := w]> a)
  else Undefined.

(** A [for] loop with [k] iterations left, index [i] incremented each time;
    [body] returns the state after one iteration ([continue] included). *)
Fixpoint for_upto {St : Type} (k : nat) (i : Z)
    (body : Z → St → result St) (st : St) : result St :=
  match k with
  | O => Ok st
  | S k' => st' ← body i st; for_upto k' (sz (i + 1)) body st'
  end.

(** How many of the positions [0 .. n-1] satisfy [f]. *)
Fixpoint bit_count (f : Z → bool) (n : nat) : Z :=
  match n with
  | O => 0
  | S n' => bit_count f n' + Z.b2z (f (Z.of_nat n'))
  end.

#[global] Instance ascii_eq_dec : EqDecision ascii := ascii_dec.

(** The characters for bits [n-1 .. 0] of [f], the highest first. *)
Fixpoint digits (f : Z → bool) (n : nat) : list ascii :=
  match n with
  | O => []
  | S n' => (if f (Z.of_nat n') then "1" else "0")%char :: digits f n'
  end.

(** [os << std::bitset<n>(val)]: [val] is converted to [unsigned long long],
    its low bits fill the bitset, and the [n] positions are written from
    position [n - 1] down to 0. *)
Definition bitset_to_string (n : Z) (val : Z) : list ascii :=
  digits (Z.testbit (val mod 2 ^ 64)) (Z.to_nat n).

(** A [std::ostream], as far as the formatted inserters of character
    sequences depend on it and change it: the characters its buffer has
    taken, [width()], [fill()], whether [flags() & adjustfield] is [left],
    and [good()]. *)
Record ostream := {
  os_chars : list ascii;
  os_width : Z;
  os_fill : ascii;
  os_left : bool;
  os_good : bool
}.

(** A formatted inserter of a character sequence: [os << "'"], and
    [os << std::bitset<n>(val)], which inserts the bitset's string.  On a
    stream that is not good the sentry fails and nothing is written.
    Otherwise the sequence is padded to [width()] with [fill()], after the
    sequence when the adjustment is [left] and before it otherwise, the
    buffer takes the characters (a buffer that refuses them is not
    modelled), and [width()] is reset to 0. *)
Definition put (os : ostream) (seq : list ascii) : ostream :=
  if os_good os then
    let pad := replicate (Z.to_nat (os_width os) - length seq) (os_fill os) in
    {| os_chars := os_chars os ++ (if os_left os then seq ++ pad else pad ++ seq);
       os_width := 0;
       os_fill := os_fill os;
       os_left := os_left os;
       os_good := true |}
  else os.


(** A [std::ostringstream] as constructed: empty, width 0, filled with
    spaces, adjusted to the right, good. *)
Definition ostringstream : ostream :=
  {| os_chars := []; os_width := 0; os_fill := " "%char;
     os_left := false; os_good := true |}.

(** How an object is brought to life through [uint_n() = default]. *)
Inductive init_form :=
| DefaultInit   (** [uint_n<N> x;] *)
| ValueInit.    (** [uint_n<N> x{};] or [uint_n<N>()] *)

Section uint_n.

(** Template parameters [UINT_TYPE] and [BITS_COUNT] (the class names the
    latter [N]), and whether the header is compiled with [TSL_DEBUG]. *)
Variable UINT_TYPE : uint_type.
Variable N : Z.
Variable TSL_DEBUG : bool.
(** Whether the translation unit defines [NDEBUG], which turns the
    [assert] of [<cassert>] into nothing. *)
Variable NDEBUG : bool.

Definition S : Z := width UINT_TYPE.
(** [storage_type().size()], that is [(N + S - 1) / S] in [size_t]. *)
Definition W : Z := sz (N + S - 1) / S.

(** Conversion to [uint_type] on assignment to a word. *)
Definition trunc (x : Z) : Z := x mod 2 ^ S.

(** [w << k] on a word [w]: evaluated in the promoted type, undefined when
    [k] is not smaller than its width. *)
Definition word_shl (w k : Z) : result Z :=
  if (0 <=? k) && (k <? promoted_width UINT_TYPE)
  then Ok (Z.shiftl w k mod 2 ^ promoted_width UINT_TYPE)
  else Undefined.

(** [w >> k] on a word [w], with the same condition on [k]. *)
Definition word_shr (w k : Z) : result Z :=
  if (0 <=? k) && (k <? promoted_width UINT_TYPE)
  then Ok (Z.shiftr w k)
  else Undefined.

(** [assert(expr)] of [<cassert>] *)
Definition assert_ (expr : bool) : result unit :=
  if NDEBUG then Ok tt else if expr then Ok tt else AssertFailed.

(** [tsl_uint_assert(expr)]: [assert(expr)] with [TSL_DEBUG],
    [static_cast<void>(0)] without. *)
Definition tsl_uint_assert (expr : bool) : result unit :=
  if TSL_DEBUG then assert_ expr else Ok tt.

(** *** Constructors *)

(** [uint_n() = default]: the constructor itself writes nothing.  Value
    initialisation zeroes the object first; default initialisation leaves
    [bits] indeterminate, which [mem], any words at all, stands for. *)
Definition uint_n_default (form : init_form) (mem : storage_type)
  : storage_type :=
  match form with
  | ValueInit => replicate (Z.to_nat W) 0
  | DefaultInit => mem
  end.

(** [uint_n(Args... args)]: takes part in overload resolution only for
    more than one argument and exactly [W] of them. *)
Definition uint_n_args (args : list Z) : option storage_type :=
  if (1 <? size args) && (size args =? W) then Some args else None.

(** [explicit uint_n(uint_type x)]: [bits()] then [bits.back() = x]. *)
Definition uint_n_word (x : Z) : result storage_type :=
  let bits := replicate (Z.to_nat W) 0 in
  store bits (sz (size bits - 1)) x.

(** *** operator<<= *)

Definition shl_body (pos : Z) (i : Z) (bits : storage_type)
  : result storage_type :=
  let upper := pos / S in
  let lower := sz (upper + 1) in
  let shift := pos mod S in
  if sz (i + upper) <? size bits then
    w ← at_ bits (sz (i + upper));
    x ← word_shl w shift;
    bits ← store bits i (trunc x);
    if sz (i + lower) <? size bits then
      w' ← at_ bits (sz (i + lower));
      y ← word_shr w' (sz (S - shift));
      cur ← at_ bits i;
      store bits i (trunc (Z.lor cur y))
    else Ok bits
  else
    store bits i 0.

Definition shl_assign (bits : storage_type) (pos : Z) : result storage_type :=
  for_upto (length bits) 0 (shl_body pos) bits.

(** [operator<<]: the same loop run on a copy of the receiver. *)
Definition shl (bits : storage_type) (pos : Z) : result storage_type :=
  shl_assign bits pos.

(** *** operator&= *)

Definition and_body (rhs : storage_type) (i : Z) (bits : storage_type)
  : result storage_type :=
  a ← at_ bits i;
  b ← at_ rhs i;
  store bits i (trunc (Z.land a b)).

Definition and_assign (bits rhs : storage_type) : result storage_type :=
  for_upto (length bits) 0 (and_body rhs) bits.

(** [operator&]: the same loop run on a copy of the receiver. *)
Definition band (bits rhs : storage_type) : result storage_type :=
  and_assign bits rhs.

(** *** operator-- *)

(** The loop [for (i = bits.size() - 1; i != size_t(0) - 1; --i)] with
    [k = i + 1]: the index wraps to [size_t(0) - 1] exactly when [k]
    reaches zero.  [break] returns at once. *)
Fixpoint dec_loop (k : nat) (bits : storage_type) : result storage_type :=
  match k with
  | O => Ok bits
  | Datatypes.S k' =>
      let i := Z.of_nat k' in
      w ← at_ bits i;
      if negb (w =? 0) then
        store bits i (trunc (w - 1))
      else
        bits' ← store bits i (trunc (w - 1));
        dec_loop k' bits'
  end.

Definition dec (bits : storage_type) : result storage_type :=
  dec_loop (length bits) bits.

(** *** popcount *)

(** [N % S ? N % S : S]: how many bits of [bits[0]] are meaningful. *)
Definition first : Z := if negb (N mod S =? 0) then N mod S else S.

Definition popcount_body (x : storage_type) (i : Z) (ret : Z) : result Z :=
  w ← at_ x i;
  Ok (sz (ret + builtin_popcount w)).

Definition popcount (x : storage_type) : result Z :=
  ret ← (if first =? S then Ok 0
         else m ← word_shl 1 first;
              w ← at_ x 0;
              Ok (builtin_popcount (Z.land (m - 1) w)));
  for_upto (length x - 1)%nat 1 (popcount_body x) ret.

(** *** test, set, unset *)

(** [bits.size() - global_pos - 1] in [size_t]. *)
Definition word_index (bits : storage_type) (pos : Z) : Z :=
  sz (sz (size bits - pos / S) - 1).

Definition test (bits : storage_type) (pos : Z) : result bool :=
  _ ← tsl_uint_assert (pos <? N);
  let local_pos := pos mod S in
  w ← at_ bits (word_index bits pos);
  m ← word_shl 1 local_pos;
  Ok (negb (Z.land w m =? 0)).

Definition set (bits : storage_type) (pos : Z) : result storage_type :=
  _ ← tsl_uint_assert (pos <? N);
  let local_pos := pos mod S in
  w ← at_ bits (word_index bits pos);
  m ← word_shl 1 local_pos;
  store bits (word_index bits pos) (trunc (Z.lor w m)).

Definition unset (bits : storage_type) (pos : Z) : result storage_type :=
  _ ← tsl_uint_assert (pos <? N);
  let local_pos := pos mod S in
  w ← at_ bits (word_index bits pos);
  m ← word_shl 1 local_pos;
  store bits (word_index bits pos) (trunc (Z.land w (Z.lnot m))).

(** *** operator<< on a stream *)

Definition print_body (x : storage_type) (i : Z) (os : ostream)
  : result ostream :=
  w ← at_ x i;
  Ok (put (put os ["'"%char]) (bitset_to_string S w)).

Definition print (os : ostream) (x : storage_type) : result ostream :=
  w ← at_ x 0;
  for_upto (length x - 1)%nat 1 (print_body x)
           (put os (bitset_to_string first w)).

(** *** Representation *)

(** A value of the class: [W] words, each within [uint_type]. *)
Definition wf (bits : storage_type) : Prop :=
  size bits = W ∧ Forall (λ w, 0 <= w < 2 ^ S) bits.

(** The stored words read as one number, most significant word first. *)
Definition value (bits : storage_type) : Z :=
  fold_left (λ acc w, acc * 2 ^ S + w) bits 0.

(** The logical [N]-bit value. *)
Definition logical (bits : storage_type) : Z := value bits mod 2 ^ N.

(** [bits[i]] as a total function, for stating results. *)
Definition word (bits : storage_type) (i : Z) : Z :=
  default 0 (bits !! Z.to_nat i).

(** Bit [pos] of the value according to the bit addressing of the class:
    offset [pos % S] of the word at index [W - 1 - pos / S]. *)
Definition bit (bits : storage_type) (pos : Z) : bool :=
  Z.testbit (word bits (W - 1 - pos / S)) (pos mod S).

(** The number of set bits among the logical positions [0 .. N-1]. *)
Definition logical_popcount (bits : storage_type) : Z :=
  bit_count (bit bits) (Z.to_nat N).

(** [builtin_popcount] summed over words. *)
Definition sum_popcount (ws : list Z) : Z :=
  foldr (λ w acc, builtin_popcount w + acc) 0 ws.

(** What [operator<<=] leaves in word [i], in terms of the words before
    the call. *)
Definition shl_word (bits : storage_type) (pos i : Z) : Z :=
  let upper := pos / S in
  let shift := pos mod S in
  if i + upper <? W then
    let hi := trunc (Z.shiftl (word bits (i + upper)) shift) in
    if i + upper + 1 <? W
    then trunc (Z.lor hi (Z.shiftr (word bits (i + upper + 1)) (S - shift)))
    else hi
  else 0.

(** The shift amounts [operator<<=] uses for [pos] are all valid: either
    [S - shift] is below the width of the promoted word, or no word has
    a lower neighbour to take bits from. *)
Definition shl_defined (pos : Z) : Prop :=
  0 < pos mod S ∨ S < promoted_width UINT_TYPE ∨ W <= pos / S + 1.

(** ** Assumptions on the instantiation *)

(** [static_assert(BITS_COUNT > 0)] *)
Hypothesis N_pos : 0 < N.
(** The computation of the storage size does not wrap in [size_t]. *)
Hypothesis N_fits : N + S - 1 < 2 ^ SIZE_WIDTH.

(** ** Arithmetic of the layout *)

Lemma S_range : 8 <= S <= 64.
Proof. unfold S. destruct UINT_TYPE; simpl; lia. Qed.

Lemma promoted_range : S <= promoted_width UINT_TYPE <= 64.
Proof. unfold S, promoted_width, INT_WIDTH. destruct UINT_TYPE; simpl; lia. Qed.

Lemma sz_small x : 0 <= x < 2 ^ SIZE_WIDTH → sz x = x.
Proof. intros. unfold sz. apply Z.mod_small. lia. Qed.

Lemma W_eq : W = (N + S - 1) / S.
Proof using N_pos N_fits.
  unfold W. pose proof S_range. rewrite sz_small; [done | lia].
Qed.

Lemma W_bounds : 1 <= W ∧ (W - 1) * S < N <= W * S ∧ W < 2 ^ 61.
Proof using N_pos N_fits.
  rewrite W_eq. pose proof S_range.
  unfold SIZE_WIDTH in *.
  assert (2 ^ 64 = 8 * 2 ^ 61) by reflexivity.
  pose proof (Z.div_mod (N + S - 1) S ltac:(lia)).
  pose proof (Z.mod_pos_bound (N + S - 1) S ltac:(lia)).
  repeat split; nia.
Qed.

Lemma div_S_lt_W pos : 0 <= pos < N → 0 <= pos / S < W.
Proof using N_pos N_fits.
  intros Hpos. pose proof S_range. pose proof W_bounds.
  split; [apply Z.div_pos; lia |].
  apply Z.div_lt_upper_bound; nia.
Qed.

Lemma word_index_eq bits pos :
  size bits = W → 0 <= pos < N →
  word_index bits pos = W - 1 - pos / S.
Proof using N_pos N_fits.
  intros Hsz Hpos. pose proof (div_S_lt_W pos Hpos). pose proof W_bounds.
  unfold word_index. rewrite Hsz.
  assert (2 ^ 61 < 2 ^ SIZE_WIDTH) by (unfold SIZE_WIDTH; lia).
  rewrite (sz_small (W - pos / S)) by lia.
  rewrite sz_small by lia. lia.
Qed.

(** ** Array reads and writes *)

Lemma at_Ok bits i : 0 <= i < size bits → at_ bits i = Ok (word bits i).
Proof.
  intros Hi. unfold at_, word, size in *.
  destruct (Z.leb_spec 0 i), (Z.ltb_spec i (Z.of_nat (length bits))); try lia.
  simpl. destruct (bits !! Z.to_nat i) as [w|] eqn:Hw; [done |].
  apply lookup_ge_None in Hw. lia.
Qed.

Lemma store_Ok bits i w :
  0 <= i < size bits → store bits i w = Ok (<[Z.to_nat i := w]> bits).
Proof.
  intros Hi. unfold store, size in *.
  destruct (Z.leb_spec 0 i), (Z.ltb_spec i (Z.of_nat (length bits))); try lia.
  done.
Qed.

Lemma size_insert bits (i : nat) w : size (<[i := w]> bits) = size bits.
Proof. unfold size. by rewrite length_insert. Qed.

Lemma word_insert_eq bits i w :
  0 <= i < size bits → word (<[Z.to_nat i := w]> bits) i = w.
Proof.
  intros Hi. unfold word, size in *.
  rewrite list_lookup_insert_eq; [done | lia].
Qed.

Lemma word_insert_ne bits i j w :
  0 <= i → 0 <= j → i ≠ j → word (<[Z.to_nat i := w]> bits) j = word bits j.
Proof.
  intros Hi Hj Hne. unfold word.
  rewrite list_lookup_insert_ne; [done | lia].
Qed.

Lemma word_range bits i :
  Forall (λ w, 0 <= w < 2 ^ S) bits → 0 <= word bits i < 2 ^ S.
Proof.
  intros Hall. unfold word. pose proof S_range.
  destruct (bits !! Z.to_nat i) as [w|] eqn:Hw; simpl; [| lia].
  by apply (Forall_lookup_1 _ _ _ _ Hall Hw).
Qed.

Lemma wf_insert bits i w :
  wf bits → 0 <= w < 2 ^ S → wf (<[i := w]> bits).
Proof.
  intros [Hsz Hall] Hw. split; [by rewrite size_insert |].
  by apply Forall_insert.
Qed.

Lemma storage_ext (a b : storage_type) :
  size a = size b → (∀ i, 0 <= i < size a → word a i = word b i) → a = b.
Proof.
  unfold size, word. intros Hlen Hw. apply list_eq_same_length with (length a);
    [lia | done |].
  intros i x y Hi Ha Hb. specialize (Hw (Z.of_nat i) ltac:(lia)).
  rewrite Nat2Z.id, Ha, Hb in Hw. done.
Qed.

(** ** Words and single bits *)

Lemma word_shl_one k : 0 <= k < S → word_shl 1 k = Ok (2 ^ k).
Proof.
  intros Hk. pose proof promoted_range. unfold word_shl.
  destruct (Z.leb_spec 0 k), (Z.ltb_spec k (promoted_width UINT_TYPE)); try lia.
  simpl. f_equal. rewrite Z.shiftl_1_l. apply Z.mod_small.
  split; [lia |]. apply Z.pow_lt_mono_r; lia.
Qed.

Lemma land_pow2 w k :
  0 <= k → Z.land w (2 ^ k) = if Z.testbit w k then 2 ^ k else 0.
Proof.
  intros Hk. apply Z.bits_inj'. intros n Hn.
  rewrite Z.land_spec, Z.pow2_bits_eqb by done.
  destruct (Z.eqb_spec k n) as [->|Hne].
  - destruct (Z.testbit w n); simpl.
    + by rewrite Z.pow2_bits_true.
    + by rewrite Z.bits_0.
  - rewrite andb_false_r. destruct (Z.testbit w k).
    + by rewrite Z.pow2_bits_false.
    + by rewrite Z.bits_0.
Qed.

Lemma land_pow2_nonzero w k :
  0 <= k → negb (Z.land w (2 ^ k) =? 0) = Z.testbit w k.
Proof.
  intros Hk. rewrite land_pow2 by done.
  assert (0 < 2 ^ k) by (apply Z.pow_pos_nonneg; lia).
  destruct (Z.testbit w k); [| done].
  destruct (Z.eqb_spec (2 ^ k) 0); [lia | done].
Qed.

Lemma trunc_small x : 0 <= x < 2 ^ S → trunc x = x.
Proof. intros. unfold trunc. by apply Z.mod_small. Qed.

Lemma trunc_range x : 0 <= trunc x < 2 ^ S.
Proof.
  unfold trunc. pose proof S_range. apply Z.mod_pos_bound.
  apply Z.pow_pos_nonneg; lia.
Qed.

Lemma testbit_trunc x k : 0 <= k < S → Z.testbit (trunc x) k = Z.testbit x k.
Proof. intros. unfold trunc. apply Z.mod_pow2_bits_low. lia. Qed.

Lemma testbit_trunc_high x k : S <= k → Z.testbit (trunc x) k = false.
Proof.
  intros. unfold trunc. pose proof S_range. apply Z.mod_pow2_bits_high. lia.
Qed.

Lemma tsl_uint_assert_true : tsl_uint_assert true = Ok tt.
Proof. unfold tsl_uint_assert, assert_. by destruct TSL_DEBUG, NDEBUG. Qed.

(** ** test, set and unset on a well-formed value *)

Lemma test_spec bits pos :
  size bits = W → 0 <= pos < N →
  test bits pos = Ok (bit bits pos).
Proof using N_pos N_fits.
  intros Hsz Hpos. pose proof S_range. pose proof (div_S_lt_W pos Hpos).
  pose proof (Z.mod_pos_bound pos S ltac:(lia)).
  unfold test. rewrite word_index_eq by done.
  destruct (Z.ltb_spec pos N); [| lia]. rewrite tsl_uint_assert_true. simpl.
  rewrite at_Ok by lia. simpl. rewrite word_shl_one by lia. simpl.
  unfold bit. by rewrite land_pow2_nonzero by lia.
Qed.

Lemma set_spec bits pos :
  size bits = W → 0 <= pos < N →
  set bits pos =
    Ok (<[Z.to_nat (W - 1 - pos / S) :=
            trunc (Z.lor (word bits (W - 1 - pos / S)) (2 ^ (pos mod S)))]> bits).
Proof using N_pos N_fits.
  intros Hsz Hpos. pose proof S_range. pose proof (div_S_lt_W pos Hpos).
  pose proof (Z.mod_pos_bound pos S ltac:(lia)).
  unfold set. rewrite word_index_eq by done.
  destruct (Z.ltb_spec pos N); [| lia]. rewrite tsl_uint_assert_true. simpl.
  rewrite at_Ok by lia. simpl. rewrite word_shl_one by lia. simpl.
  by rewrite store_Ok by lia.
Qed.

Lemma unset_spec bits pos :
  size bits = W → 0 <= pos < N →
  unset bits pos =
    Ok (<[Z.to_nat (W - 1 - pos / S) :=
            trunc (Z.land (word bits (W - 1 - pos / S))
                          (Z.lnot (2 ^ (pos mod S))))]> bits).
Proof using N_pos N_fits.
  intros Hsz Hpos. pose proof S_range. pose proof (div_S_lt_W pos Hpos).
  pose proof (Z.mod_pos_bound pos S ltac:(lia)).
  unfold unset. rewrite word_index_eq by done.
  destruct (Z.ltb_spec pos N); [| lia]. rewrite tsl_uint_assert_true. simpl.
  rewrite at_Ok by lia. simpl. rewrite word_shl_one by lia. simpl.
  by rewrite store_Ok by lia.
Qed.

Lemma testbit_high w k : 0 <= w < 2 ^ S → S <= k → Z.testbit w k = false.
Proof.
  intros Hw Hk. rewrite <- (trunc_small w Hw). by apply testbit_trunc_high.
Qed.


Lemma testbit_set_word w k j :
  0 <= k < S → 0 <= j < S →
  Z.testbit (trunc (Z.lor w (2 ^ k))) j = Z.testbit w j || (k =? j).
Proof.
  intros Hk Hj. rewrite testbit_trunc by done.
  by rewrite Z.lor_spec, Z.pow2_bits_eqb by lia.
Qed.

Lemma testbit_unset_word w k j :
  0 <= k < S → 0 <= j < S →
  Z.testbit (trunc (Z.land w (Z.lnot (2 ^ k)))) j
  = Z.testbit w j && negb (k =? j).
Proof.
  intros Hk Hj. rewrite testbit_trunc by done.
  by rewrite Z.land_spec, Z.lnot_spec, Z.pow2_bits_eqb by lia.
Qed.

Lemma same_position p q :
  p / S = q / S → p mod S = q mod S → p = q.
Proof.
  intros Hd Hm. pose proof S_range.
  rewrite (Z.div_mod p S), (Z.div_mod q S) by lia. by rewrite Hd, Hm.
Qed.

Lemma bit_insert bits pos q w :
  size bits = W → 0 <= pos < N → 0 <= q < N →
  bit (<[Z.to_nat (W - 1 - pos / S) := w]> bits) q
  = if pos / S =? q / S then Z.testbit w (q mod S) else bit bits q.
Proof using N_pos N_fits.
  intros Hsz Hpos Hq. unfold bit.
  pose proof (div_S_lt_W pos Hpos). pose proof (div_S_lt_W q Hq).
  destruct (Z.eqb_spec (pos / S) (q / S)) as [<-|Hne].
  - by rewrite word_insert_eq by lia.
  - by rewrite word_insert_ne by lia.
Qed.

Lemma bit_set bits pos q s :
  size bits = W → 0 <= pos < N → 0 <= q < N → set bits pos = Ok s →
  bit s q = bit bits q || (pos =? q).
Proof using N_pos N_fits.
  intros Hsz Hpos Hq Hs. rewrite set_spec in Hs by done.
  injection Hs as <-. rewrite bit_insert by done. pose proof S_range.
  pose proof (Z.mod_pos_bound pos S ltac:(lia)).
  pose proof (Z.mod_pos_bound q S ltac:(lia)).
  destruct (Z.eqb_spec (pos / S) (q / S)) as [Hd|Hd].
  - rewrite testbit_set_word by lia. unfold bit. rewrite <- Hd. f_equal.
    destruct (Z.eqb_spec (pos mod S) (q mod S)) as [Hm|Hm],
             (Z.eqb_spec pos q) as [Heq|Hne]; try done.
    + by destruct Hne; apply same_position.
    + by subst.
  - destruct (Z.eqb_spec pos q) as [->|]; [done |]. by rewrite orb_false_r.
Qed.

Lemma bit_unset bits pos q u :
  size bits = W → 0 <= pos < N → 0 <= q < N → unset bits pos = Ok u →
  bit u q = bit bits q && negb (pos =? q).
Proof using N_pos N_fits.
  intros Hsz Hpos Hq Hu. rewrite unset_spec in Hu by done.
  injection Hu as <-. rewrite bit_insert by done. pose proof S_range.
  pose proof (Z.mod_pos_bound pos S ltac:(lia)).
  pose proof (Z.mod_pos_bound q S ltac:(lia)).
  destruct (Z.eqb_spec (pos / S) (q / S)) as [Hd|Hd].
  - rewrite testbit_unset_word by lia. unfold bit. rewrite <- Hd. f_equal.
    destruct (Z.eqb_spec (pos mod S) (q mod S)) as [Hm|Hm],
             (Z.eqb_spec pos q) as [Heq|Hne]; try done.
    + by destruct Hne; apply same_position.
    + by subst.
  - destruct (Z.eqb_spec pos q) as [->|]; [done |]. by rewrite andb_true_r.
Qed.



Lemma set_unset_Ok bits pos :
  size bits = W → 0 <= pos < N →
  (∃ bits', set bits pos = Ok bits' ∧ size bits' = W) ∧
  (∃ bits', unset bits pos = Ok bits' ∧ size bits' = W).
Proof using N_pos N_fits.
  intros Hsz Hpos. split; eexists.
  - rewrite set_spec by done. by rewrite size_insert.
  - rewrite unset_spec by done. by rewrite size_insert.
Qed.

(** C10: under the precondition [pos < N] the storage index computed by
    [test], [set] and [unset] is within bounds: [pos / S] is at most
    [W - 1], the subtraction [bits.size() - global_pos - 1] does not wrap
    and lies in [0, W - 1], the debug assertion holds, and none of the three
    functions reaches an out-of-range array access. *)
Theorem word_index_in_bounds bits pos :
  size bits = W → 0 <= pos < N →
  pos / S <= W - 1 ∧
  word_index bits pos = W - 1 - pos / S ∧
  0 <= word_index bits pos <= W - 1 ∧
  tsl_uint_assert (pos <? N) = Ok tt ∧
  (∃ w, at_ bits (word_index bits pos) = Ok w) ∧
  (∃ b, test bits pos = Ok b) ∧
  (∃ bits', set bits pos = Ok bits' ∧ size bits' = W) ∧
  (∃ bits', unset bits pos = Ok bits' ∧ size bits' = W).
Proof using N_pos N_fits.
  intros Hsz Hpos. pose proof (div_S_lt_W pos Hpos) as Hdiv.
  rewrite word_index_eq by done.
  split; [lia |]. split; [done |]. split; [lia |]. split.
  { destruct (Z.ltb_spec pos N); [apply tsl_uint_assert_true | lia]. }
  split; [eexists; apply at_Ok; lia |].
  split; [eexists; by apply test_spec |].
  split; eexists.
  - rewrite set_spec by done. by rewrite size_insert.
  - rewrite unset_spec by done. by rewrite size_insert.
Qed.

(** C6: a value built by the multi-word constructor from [W > 1] words,
    most significant first, reads back through [test]: for [pos] in
    [0, N), [test(pos)] is bit [pos mod S] of the supplied word at index
    [W - 1 - pos / S]; when that word is the top one, the offset is below
    [first], so its padding bits are not observed. *)
Theorem word_packing_roundtrip args pos :
  1 < W → size args = W → 0 <= pos < N →
  ∃ bits,
    uint_n_args args = Some bits ∧
    test bits pos = Ok (Z.testbit (word args (W - 1 - pos / S)) (pos mod S)) ∧
    (W - 1 - pos / S = 0 → pos mod S < first).
Proof using N_pos N_fits.
  intros HW Hsz Hpos. exists args. unfold uint_n_args. rewrite Hsz.
  destruct (Z.ltb_spec 1 W); [| lia]. rewrite Z.eqb_refl. simpl.
  split; [done |]. split; [by apply test_spec |].
  intros Htop. pose proof S_range. pose proof W_bounds. unfold first.
  pose proof (Z.mod_pos_bound pos S ltac:(lia)).
  destruct (Z.eqb_spec (N mod S) 0); simpl; [lia |].
  pose proof (Z.div_mod pos S ltac:(lia)).
  pose proof (Z.div_mod N S ltac:(lia)).
  pose proof (Z.mod_pos_bound N S ltac:(lia)).
  assert (N / S = W - 1) by nia.
  nia.
Qed.

(** C8 (amended): for [pos < N], after [set(pos)] the bit tests true and
    every other position is unchanged; after [unset(pos)] it tests false
    and every other position is unchanged; [set(pos)] followed by
    [unset(pos)] leaves the bit false with every other position unchanged,
    which is the original bit exactly when that bit was false. *)
Theorem set_unset_test_frame bits pos :
  size bits = W → 0 <= pos < N →
  ∃ s u su,
    set bits pos = Ok s ∧ unset bits pos = Ok u ∧ unset s pos = Ok su ∧
    test s pos = Ok true ∧
    (∀ q, 0 <= q < N → q ≠ pos → test s q = test bits q) ∧
    test u pos = Ok false ∧
    (∀ q, 0 <= q < N → q ≠ pos → test u q = test bits q) ∧
    test su pos = Ok false ∧
    (∀ q, 0 <= q < N → q ≠ pos → test su q = test bits q) ∧
    (test su pos = test bits pos ↔ test bits pos = Ok false).
Proof using N_pos N_fits.
  intros Hsz Hpos.
  destruct (set_unset_Ok bits pos Hsz Hpos)
    as ((s & Hs & Hss) & (u & Hu & Hus)).
  destruct (set_unset_Ok s pos Hss Hpos)
    as (_ & (su & Hsu & Hsus)).
  exists s, u, su. rewrite !test_spec by done.
  rewrite (bit_set bits pos pos s), (bit_unset bits pos pos u),
    (bit_unset s pos pos su) by done.
  rewrite Z.eqb_refl, orb_true_r, !andb_false_r.
  repeat split; try done.
  - intros q Hq Hne. rewrite !test_spec by done.
    rewrite (bit_set bits pos q s) by done.
    destruct (Z.eqb_spec pos q); [by subst | by rewrite orb_false_r].
  - intros q Hq Hne. rewrite !test_spec by done.
    rewrite (bit_unset bits pos q u) by done.
    destruct (Z.eqb_spec pos q); [by subst | by rewrite andb_true_r].
  - intros q Hq Hne. rewrite !test_spec by done.
    rewrite (bit_unset s pos q su), (bit_set bits pos q s) by done.
    destruct (Z.eqb_spec pos q); [by subst |].
    by rewrite orb_false_r, andb_true_r.
Qed.

(** ** Loops *)

(** Invariant rule for a counted loop that never fails. *)
Lemma for_upto_inv {St : Type} (Inv : Z → St → Prop) body k i (st : St) :
  0 <= i → i + Z.of_nat k < 2 ^ SIZE_WIDTH →
  Inv i st →
  (∀ j s, i <= j < i + Z.of_nat k → Inv j s →
          ∃ s', body j s = Ok s' ∧ Inv (j + 1) s') →
  ∃ st', for_upto k i body st = Ok st' ∧ Inv (i + Z.of_nat k) st'.
Proof.
  revert i st. induction k as [|k IH]; intros i st Hi Hk Hinv Hbody.
  - exists st. split; [done |]. by replace (i + Z.of_nat 0) with i by lia.
  - destruct (Hbody i st ltac:(lia) Hinv) as (s' & Hs' & Hinv').
    simpl. rewrite Hs'. simpl. rewrite sz_small by lia.
    destruct (IH (i + 1) s') as (st' & Hst' & Hfin); [lia | lia | done | |].
    + intros j s Hj. apply Hbody. lia.
    + exists st'. split; [done |].
      by replace (i + Z.of_nat (Datatypes.S k)) with (i + 1 + Z.of_nat k) by lia.
Qed.

(** ** operator&= *)

Lemma land_range a b : 0 <= a < 2 ^ S → 0 <= b → 0 <= Z.land a b < 2 ^ S.
Proof.
  intros Ha Hb. pose proof S_range.
  split; [apply Z.land_nonneg; lia |].
  destruct (Z.eq_dec (Z.land a b) 0) as [->|Hnz]; [lia |].
  assert (0 < Z.land a b) by (pose proof (Z.land_nonneg a b); lia).
  apply Z.log2_lt_pow2; [done |].
  destruct (Z.lt_ge_cases (Z.log2 (Z.land a b)) S) as [|Hge]; [done |].
  pose proof (Z.bit_log2 (Z.land a b) ltac:(lia)) as Hbit.
  rewrite Z.land_spec, (testbit_high a) in Hbit by lia. done.
Qed.

Lemma and_assign_spec x y :
  wf x → wf y →
  ∃ r, and_assign x y = Ok r ∧ wf r ∧
       ∀ i, 0 <= i < W → word r i = Z.land (word x i) (word y i).
Proof using N_pos N_fits.
  intros [Hx Hxr] [Hy Hyr]. pose proof W_bounds as HW. unfold and_assign.
  assert (2 ^ 61 < 2 ^ SIZE_WIDTH) by (unfold SIZE_WIDTH; lia).
  destruct (for_upto_inv
    (λ j s, wf s ∧
            (∀ i, 0 <= i < j → word s i = Z.land (word x i) (word y i)) ∧
            (∀ i, j <= i < W → word s i = word x i))
    (and_body y) (length x) 0 x) as (r & Hr & Hwf & Hlow & _).
  - lia.
  - unfold size in Hx. lia.
  - split; [done |]. split; [lia | done].
  - intros j s Hj (Hs & Hlow & Hhigh). unfold size in Hx.
    destruct Hs as [Hsz Hsr]. unfold and_body.
    rewrite !at_Ok by lia. simpl. rewrite store_Ok by lia.
    eexists. split; [done |].
    rewrite trunc_small by (apply land_range; [by apply word_range |
                                                by apply word_range]).
    split; [| split].
    + apply wf_insert; [done |].
      apply land_range; by apply word_range.
    + intros i Hi. destruct (Z.eq_dec i j) as [->|Hne].
      * rewrite word_insert_eq by lia. rewrite Hhigh by lia. done.
      * rewrite word_insert_ne by lia. apply Hlow. lia.
    + intros i Hi. rewrite word_insert_ne by lia. apply Hhigh. lia.
  - exists r. split; [done |]. split; [done |].
    intros i Hi. apply Hlow. unfold size in Hx. lia.
Qed.

(** C9: bitwise AND is word-wise and commutative: [x & y] and [y & x] are
    the same value, word [i] of the result is the AND of words [i] of the
    operands alone, and for [pos < N] the result's bit is the conjunction
    of the operands' bits. *)
Theorem and_wordwise_commutative x y :
  wf x → wf y →
  ∃ r, band x y = Ok r ∧ band y x = Ok r ∧ wf r ∧
       (∀ i, 0 <= i < W → word r i = Z.land (word x i) (word y i)) ∧
       (∀ pos, 0 <= pos < N →
               ∃ a b, test x pos = Ok a ∧ test y pos = Ok b ∧
                      test r pos = Ok (a && b)).
Proof using N_pos N_fits.
  intros Hx Hy. unfold band.
  destruct (and_assign_spec x y Hx Hy) as (r & Hr & Hwf & Hw).
  destruct (and_assign_spec y x Hy Hx) as (r' & Hr' & Hwf' & Hw').
  assert (r' = r) as ->.
  { apply storage_ext; [destruct Hwf, Hwf'; congruence |].
    intros i Hi. destruct Hwf' as [Hsz' _]. rewrite Hsz' in Hi.
    rewrite Hw, Hw' by done. apply Z.land_comm. }
  exists r. repeat split; try done; [apply Hwf | apply Hwf |].
  intros pos Hpos. exists (bit x pos), (bit y pos).
  destruct Hx as [Hx _], Hy as [Hy _], Hwf as [Hsz _].
  rewrite !test_spec by done. repeat split.
  unfold bit. rewrite Hw by (pose proof (div_S_lt_W pos Hpos); lia).
  by rewrite Z.land_spec.
Qed.

(** ** operator<<= *)

Lemma trunc_mod_promoted x : trunc (x mod 2 ^ promoted_width UINT_TYPE) = trunc x.
Proof.
  unfold trunc. pose proof S_range. pose proof promoted_range.
  replace (promoted_width UINT_TYPE) with (S + (promoted_width UINT_TYPE - S)) by lia.
  rewrite Z.pow_add_r by lia.
  rewrite Z.rem_mul_r by (apply Z.pow_nonzero || apply Z.pow_pos_nonneg; lia).
  rewrite Z.mul_comm, Z.mod_add by (apply Z.pow_nonzero; lia).
  apply Z.mod_mod. apply Z.pow_nonzero; lia.
Qed.

Lemma shl_body_spec bits pos j s :
  0 <= pos < 2 ^ SIZE_WIDTH → shl_defined pos →
  0 <= j < W → wf s →
  (∀ i, j <= i < W → word s i = word bits i) →
  ∃ s', shl_body pos j s = Ok s' ∧ wf s' ∧
        word s' j = shl_word bits pos j ∧
        (∀ i, 0 <= i < W → i ≠ j → word s' i = word s i).
Proof using N_pos N_fits.
  intros Hpos Hdef Hj [Hsz Hsr] Hhigh.
  pose proof S_range as HS. pose proof promoted_range as HP.
  pose proof W_bounds as HW. unfold SIZE_WIDTH in *.
  assert (0 <= pos / S < 2 ^ 61) as Hupper.
  { split; [apply Z.div_pos; lia |].
    apply Z.div_lt_upper_bound; [lia |].
    assert (2 ^ 64 = 8 * 2 ^ 61) by reflexivity. nia. }
  pose proof (Z.mod_pos_bound pos S ltac:(lia)) as Hshift.
  assert (2 ^ 61 + 2 ^ 61 + 1 < 2 ^ 64) by reflexivity.
  unfold shl_body, shl_word.
  rewrite (sz_small (pos / S + 1)) by (unfold SIZE_WIDTH; lia).
  rewrite !sz_small by (unfold SIZE_WIDTH; lia).
  rewrite Hsz.
  destruct (Z.ltb_spec (j + pos / S) W) as [Hin|Hout].
  - rewrite at_Ok by lia. simpl.
    unfold word_shl.
    destruct (Z.leb_spec 0 (pos mod S)),
             (Z.ltb_spec (pos mod S) (promoted_width UINT_TYPE)); try lia.
    simpl. rewrite store_Ok by lia. simpl.
    rewrite size_insert, Hsz, trunc_mod_promoted.
    rewrite (Hhigh (j + pos / S)) by lia.
    replace (j + (pos / S + 1)) with (j + pos / S + 1) by lia.
    destruct (Z.ltb_spec (j + pos / S + 1) W) as [Hin'|Hout'].
    + rewrite at_Ok by (rewrite size_insert; lia). simpl.
      unfold word_shr.
      assert (S - pos mod S < promoted_width UINT_TYPE) as Hshr
        by (destruct Hdef as [|[|]]; lia).
      destruct (Z.leb_spec 0 (S - pos mod S)),
               (Z.ltb_spec (S - pos mod S) (promoted_width UINT_TYPE)); try lia.
      simpl. rewrite at_Ok by (rewrite size_insert; lia). simpl.
      rewrite store_Ok by (rewrite size_insert; lia).
      eexists. split; [done |].
      rewrite word_insert_eq by lia.
      rewrite (word_insert_ne _ j (j + pos / S + 1)) by lia.
      rewrite (Hhigh (j + pos / S + 1)) by lia.
      split; [| split].
      * repeat apply wf_insert; try apply trunc_range. by split.
      * by rewrite word_insert_eq by (rewrite size_insert; lia).
      * intros i Hi Hne. by rewrite !word_insert_ne by lia.
    + eexists. split; [done |]. split; [| split].
      * apply wf_insert; [by split | apply trunc_range].
      * by rewrite word_insert_eq by lia.
      * intros i Hi Hne. by rewrite word_insert_ne by lia.
  - rewrite store_Ok by lia. eexists. split; [done |]. split; [| split].
    + apply wf_insert; [by split |]. split; [lia |].
      apply Z.pow_pos_nonneg; lia.
    + by rewrite word_insert_eq by lia.
    + intros i Hi Hne. by rewrite word_insert_ne by lia.
Qed.

Lemma shl_assign_words bits pos :
  wf bits → 0 <= pos < 2 ^ SIZE_WIDTH → shl_defined pos →
  ∃ r, shl_assign bits pos = Ok r ∧ wf r ∧
       ∀ i, 0 <= i < W → word r i = shl_word bits pos i.
Proof using N_pos N_fits.
  intros Hwf Hpos Hdef. pose proof W_bounds as HW. unfold shl_assign.
  assert (size bits = W) as Hsz by apply Hwf. unfold size in Hsz.
  assert (2 ^ 61 < 2 ^ SIZE_WIDTH) by (unfold SIZE_WIDTH; lia).
  destruct (for_upto_inv
    (λ j s, wf s ∧
            (∀ i, 0 <= i < j → word s i = shl_word bits pos i) ∧
            (∀ i, j <= i < W → word s i = word bits i))
    (shl_body pos) (length bits) 0 bits) as (r & Hr & Hwfr & Hlow & _).
  - lia.
  - lia.
  - split; [done |]. split; [lia | done].
  - intros j s Hj (Hs & Hlow & Hhigh).
    destruct (shl_body_spec bits pos j s) as (s' & Hs' & Hwf' & Hj' & Hother);
      [done | done | lia | done | done |].
    exists s'. split; [done |]. split; [done |]. split.
    + intros i Hi. destruct (Z.eq_dec i j) as [->|Hne]; [done |].
      rewrite Hother by lia. apply Hlow. lia.
    + intros i Hi. rewrite Hother by lia. apply Hhigh. lia.
  - exists r. split; [done |]. split; [done |].
    intros i Hi. apply Hlow. lia.
Qed.

Lemma div_mod_S a d m :
  0 <= m < S → a = d * S + m → a / S = d ∧ a mod S = m.
Proof.
  intros Hm ->. pose proof S_range. split.
  - symmetry. apply Z.div_unique with m; lia.
  - symmetry. apply Z.mod_unique with d; lia.
Qed.

Lemma testbit_neg w k : k < 0 → Z.testbit w k = false.
Proof. intros. by apply Z.testbit_neg_r. Qed.

Lemma shl_word_bit bits pos i k :
  wf bits → 0 <= pos → 0 <= i < W → 0 <= k < S →
  Z.testbit (shl_word bits pos i) k
  = (pos <=? (W - 1 - i) * S + k) && bit bits ((W - 1 - i) * S + k - pos).
Proof using N_pos N_fits.
  intros [Hsz Hr] Hpos Hi Hk. pose proof S_range as HS.
  pose proof (Z.div_mod pos S ltac:(lia)) as Hdm.
  pose proof (Z.mod_pos_bound pos S ltac:(lia)) as Hshift.
  assert (0 <= pos / S) as Hupper by (apply Z.div_pos; lia).
  unfold shl_word, bit.
  set (upper := pos / S) in *. set (shift := pos mod S) in *.
  set (q := (W - 1 - i) * S + k).
  destruct (Z.ltb_spec (i + upper) W) as [Hin|Hout].
  - assert (Z.testbit (trunc (Z.shiftl (word bits (i + upper)) shift)) k
            = Z.testbit (word bits (i + upper)) (k - shift)) as Hhi.
    { rewrite testbit_trunc by done. apply Z.shiftl_spec. lia. }
    destruct (Z.ltb_spec (i + upper + 1) W) as [Hin'|Hout'].
    + rewrite testbit_trunc, Z.lor_spec, Hhi by done.
      rewrite Z.shiftr_spec by lia.
      destruct (Z.leb_spec pos q) as [_|Hlt]; [| nia]. simpl.
      destruct (Z.le_gt_cases shift k) as [Hge|Hlt].
      * destruct (div_mod_S (q - pos) (W - 1 - i - upper) (k - shift))
          as [-> ->]; [lia | unfold q; lia |].
        rewrite (testbit_high (word bits (i + upper + 1))), orb_false_r
          by (try apply word_range; done || lia).
        f_equal; try f_equal; lia.
      * destruct (div_mod_S (q - pos) (W - 2 - i - upper) (k + S - shift))
          as [-> ->]; [lia | unfold q; lia |].
        rewrite testbit_neg by lia. simpl. f_equal; try f_equal; lia.
    + rewrite Hhi.
      destruct (Z.le_gt_cases shift k) as [Hge|Hlt].
      * destruct (Z.leb_spec pos q) as [_|Hlt]; [| nia]. simpl.
        destruct (div_mod_S (q - pos) 0 (k - shift))
          as [-> ->]; [lia | unfold q; nia |].
        f_equal; try f_equal; lia.
      * rewrite testbit_neg by lia.
        destruct (Z.leb_spec pos q) as [Hle|_]; [nia | done].
  - rewrite Z.bits_0.
    destruct (Z.leb_spec pos q) as [Hle|_]; [nia | done].
Qed.

(** Where its shift amounts are valid, [operator<<=] moves logical bit
    [q - pos] to position [q] and clears the positions below [pos]. *)
Lemma shl_assign_bits bits pos :
  wf bits → 0 <= pos < 2 ^ SIZE_WIDTH → shl_defined pos →
  ∃ r, shl_assign bits pos = Ok r ∧ wf r ∧
       ∀ q, 0 <= q < N → bit r q = (pos <=? q) && bit bits (q - pos).
Proof using N_pos N_fits.
  intros Hwf Hpos Hdef.
  destruct (shl_assign_words bits pos Hwf Hpos Hdef) as (r & Hr & Hwfr & Hw).
  exists r. split; [done |]. split; [done |].
  intros q Hq. pose proof S_range. pose proof (div_S_lt_W q Hq).
  pose proof (Z.mod_pos_bound q S ltac:(lia)).
  pose proof (Z.div_mod q S ltac:(lia)).
  unfold bit at 1. rewrite Hw by lia.
  rewrite shl_word_bit by (done || lia).
  replace ((W - 1 - (W - 1 - q / S)) * S + q mod S) with q by lia. done.
Qed.

(** The same through [test]: position [q] of the result tests as position
    [q - pos] of the receiver did, and as 0 below [pos]. *)
Lemma shl_assign_test bits pos :
  wf bits → 0 <= pos < 2 ^ SIZE_WIDTH → shl_defined pos →
  ∃ r, shl_assign bits pos = Ok r ∧ wf r ∧
       ∀ q, 0 <= q < N →
            test r q = if pos <=? q then test bits (q - pos) else Ok false.
Proof using N_pos N_fits.
  intros Hwf Hpos Hdef.
  destruct (shl_assign_bits bits pos Hwf Hpos Hdef) as (r & Hr & Hwfr & Hbit).
  exists r. split; [done |]. split; [done |].
  intros q Hq. destruct Hwf as [Hsz _], Hwfr as [Hszr _].
  rewrite test_spec, Hbit by done.
  destruct (Z.leb_spec pos q); [| done].
  by rewrite test_spec by (done || lia).
Qed.

(** Where a shift amount is not valid, the very first iteration is
    undefined. *)
Lemma shl_assign_undefined bits pos :
  wf bits → 0 <= pos < 2 ^ SIZE_WIDTH → ¬ shl_defined pos →
  shl_assign bits pos = Undefined.
Proof using N_pos N_fits.
  intros [Hsz Hr] Hpos Hdef. pose proof S_range as HS.
  pose proof promoted_range as HP. pose proof W_bounds as HW.
  pose proof (Z.mod_pos_bound pos S ltac:(lia)) as Hshift.
  unfold shl_defined in Hdef.
  assert (pos mod S = 0) as Hs0 by lia.
  assert (promoted_width UINT_TYPE = S) as HPS by lia.
  assert (pos / S + 1 < W) as Hlow by lia.
  assert (0 <= pos / S) by (apply Z.div_pos; lia).
  assert (2 ^ 61 < 2 ^ SIZE_WIDTH) by (unfold SIZE_WIDTH; lia).
  assert (shl_body pos 0 bits = Undefined) as Hbody.
  { unfold shl_body. rewrite Hs0.
    rewrite (sz_small (pos / S + 1)) by lia. rewrite !Z.add_0_l.
    rewrite !sz_small by lia. rewrite Hsz.
    destruct (Z.ltb_spec (pos / S) W); [| lia].
    rewrite at_Ok by lia. simpl.
    unfold word_shl.
    destruct (Z.leb_spec 0 0), (Z.ltb_spec 0 (promoted_width UINT_TYPE)); try lia.
    simpl. rewrite store_Ok by lia. simpl. rewrite size_insert, Hsz.
    destruct (Z.ltb_spec (pos / S + 1) W); [| lia].
    rewrite (at_Ok _ (pos / S + 1)) by (rewrite size_insert; lia). simpl.
    unfold word_shr. rewrite Z.sub_0_r, HPS.
    by rewrite Z.ltb_irrefl, andb_false_r. }
  unfold shl_assign. unfold size in Hsz.
  destruct (length bits) as [|n] eqn:Hlen; [lia |].
  cbn [for_upto]. by rewrite Hbody.
Qed.

(** ** popcount *)

Lemma first_spec : 0 < first <= S ∧ N = (W - 1) * S + first.
Proof using N_pos N_fits.
  pose proof S_range. pose proof W_bounds. unfold first.
  pose proof (Z.div_mod N S ltac:(lia)).
  pose proof (Z.mod_pos_bound N S ltac:(lia)).
  destruct (Z.eqb_spec (N mod S) 0); simpl.
  - assert (N / S = W) by nia. nia.
  - assert (N / S = W - 1) by nia. nia.
Qed.


Lemma land_mask_0 n w :
  0 <= n → (∀ k, 0 <= k < n → Z.testbit w k = false) →
  Z.land (2 ^ n - 1) w = 0.
Proof.
  intros Hn Hw. apply Z.bits_inj'. intros k Hk.
  rewrite Z.land_spec, Z.bits_0. rewrite Z.sub_1_r, <- Z.ones_equiv.
  destruct (Z.lt_ge_cases k n).
  - rewrite Hw by lia. apply andb_false_r.
  - by rewrite Z.ones_spec_high by lia.
Qed.

Lemma popcount_zero r :
  size r = W →
  (∀ k, 0 <= k < first → Z.testbit (word r 0) k = false) →
  (∀ i, 1 <= i < W → word r i = 0) →
  popcount r = Ok 0.
Proof using N_pos N_fits.
  intros Hsz Htop Hrest. pose proof S_range. pose proof W_bounds as HW.
  pose proof first_spec as [Hf _].
  assert (2 ^ 61 < 2 ^ SIZE_WIDTH) by (unfold SIZE_WIDTH; lia).
  unfold popcount.
  assert ((if first =? S then Ok 0
           else m ← word_shl 1 first; w ← at_ r 0;
                Ok (builtin_popcount (Z.land (m - 1) w))) = Ok 0) as ->.
  { destruct (Z.eqb_spec first S); [done |].
    rewrite word_shl_one by lia. simpl. rewrite at_Ok by lia. simpl.
    by rewrite land_mask_0 by (lia || done). }
  simpl. unfold size in Hsz.
  destruct (for_upto_inv (λ _ ret, ret = 0) (popcount_body r)
              (length r - 1)%nat 1 0) as (ret & Hret & ->); try done; try lia.
  intros j s Hj ->. exists 0. split; [| done].
  unfold popcount_body. rewrite at_Ok by (unfold size; lia). simpl.
  rewrite Hrest by lia. done.
Qed.

Lemma popcount_pos_size p : 0 < popcount_pos p <= Z.pos (Pos.size p).
Proof. induction p; simpl; lia. Qed.

Lemma builtin_popcount_range w :
  0 <= w < 2 ^ S → 0 <= builtin_popcount w <= S.
Proof.
  intros Hw. pose proof S_range. unfold builtin_popcount.
  assert (2 ^ S <= 2 ^ 64) by (apply Z.pow_le_mono_r; lia).
  rewrite Z.mod_small by lia.
  destruct w as [|p|p]; try lia.
  pose proof (popcount_pos_size p). pose proof (Pos.size_le p) as Hsize.
  assert (2 ^ Z.pos (Pos.size p) <= 2 * Z.pos p) as Hle.
  { change 2 with (Z.pos 2) at 1. rewrite <- Pos2Z.inj_pow. lia. }
  assert (Z.pos (Pos.size p) < S + 1); [| lia].
  apply (Z.pow_lt_mono_r_iff 2); [lia | lia |].
  rewrite Z.pow_add_r by lia. lia.
Qed.

Lemma sum_popcount_snoc ws w :
  sum_popcount (ws ++ [w]) = sum_popcount ws + builtin_popcount w.
Proof. unfold sum_popcount. induction ws as [|x ws IH]; simpl; lia. Qed.

(** What [popcount] returns: the masked top word, unless [N] is a multiple
    of [S] and the start value is 0, plus the count of every other word. *)
Lemma popcount_words bits :
  wf bits →
  popcount bits
  = Ok ((if first =? S then 0
         else builtin_popcount (Z.land (2 ^ first - 1) (word bits 0)))
        + sum_popcount (drop 1 bits)).
Proof using N_pos N_fits.
  intros [Hsz Hr]. pose proof S_range. pose proof W_bounds as HW.
  pose proof first_spec as [Hf _].
  unfold popcount.
  set (top := if first =? S then 0
              else builtin_popcount (Z.land (2 ^ first - 1) (word bits 0))).
  assert ((if first =? S then Ok 0
           else m ← word_shl 1 first; w ← at_ bits 0;
                Ok (builtin_popcount (Z.land (m - 1) w))) = Ok top) as ->.
  { unfold top. destruct (Z.eqb_spec first S); [done |].
    rewrite word_shl_one by lia. simpl. by rewrite at_Ok by lia. }
  assert (0 <= top <= S) as Htop.
  { unfold top. destruct (first =? S); [lia |].
    apply builtin_popcount_range. rewrite Z.land_comm.
    apply land_range; [by apply word_range |].
    assert (0 < 2 ^ first) by (apply Z.pow_pos_nonneg; lia). lia. }
  simpl. unfold size in Hsz.
  destruct (for_upto_inv
    (λ j ret, ret = top + sum_popcount (take (Z.to_nat (j - 1)) (drop 1 bits)) ∧
              0 <= ret <= S * j)
    (popcount_body bits) (length bits - 1)%nat 1 top)
    as (ret & Hret & -> & _); try lia.
  - unfold SIZE_WIDTH in *. lia.
  - simpl. unfold sum_popcount. simpl. lia.
  - intros j ret Hj [-> Hbound]. unfold popcount_body.
    rewrite at_Ok by (unfold size; lia). simpl.
    pose proof (builtin_popcount_range (word bits j) (word_range bits j Hr)).
    rewrite sz_small by nia. eexists. split; [done |]. split; [| lia].
    replace (Z.to_nat (j + 1 - 1)) with (Datatypes.S (Z.to_nat (j - 1))) by lia.
    assert (drop 1 bits !! Z.to_nat (j - 1) = Some (word bits j)) as Hlk.
    { rewrite lookup_drop. replace (1 + Z.to_nat (j - 1))%nat with (Z.to_nat j) by lia.
      unfold word. destruct (bits !! Z.to_nat j) eqn:Hb; [done |].
      apply lookup_ge_None in Hb. lia. }
    rewrite (take_S_r _ _ _ Hlk), sum_popcount_snoc. lia.
  - rewrite Hret. do 3 f_equal. apply take_ge. rewrite length_drop. lia.
Qed.

(** With [N] a multiple of [S], [popcount] does not depend on [bits[0]]. *)
Lemma popcount_multiple_ignores_top bits :
  wf bits → N mod S = 0 → popcount bits = Ok (sum_popcount (drop 1 bits)).
Proof using N_pos N_fits.
  intros Hwf HN. rewrite popcount_words by done. unfold first.
  rewrite HN. by rewrite Z.eqb_refl.
Qed.

(** *** popcount against the logical bits *)

Lemma bit_count_ext f g n :
  (∀ k, 0 <= k < Z.of_nat n → f k = g k) → bit_count f n = bit_count g n.
Proof.
  induction n as [|n IH]; intros Hfg; [done |].
  simpl. rewrite IH by (intros; apply Hfg; lia). by rewrite Hfg by lia.
Qed.

Lemma bit_count_add f n m :
  bit_count f (n + m)
  = bit_count f n + bit_count (λ k, f (Z.of_nat n + k)) m.
Proof.
  induction m as [|m IH]; simpl.
  - rewrite Nat.add_0_r. lia.
  - rewrite Nat.add_succ_r. simpl. rewrite IH, Nat2Z.inj_add. lia.
Qed.

Lemma bit_count_false n : bit_count (λ _, false) n = 0.
Proof. induction n as [|n IH]; simpl; lia. Qed.

Lemma bit_count_succ_l f n :
  bit_count f (Datatypes.S n) = Z.b2z (f 0) + bit_count (λ k, f (1 + k)) n.
Proof.
  change (Datatypes.S n) with (1 + n)%nat. rewrite bit_count_add.
  cbn [bit_count]. change (Z.of_nat 0) with 0. change (Z.of_nat 1) with 1. lia.
Qed.

Lemma popcount_pos_bit_count n p :
  Z.pos p < 2 ^ Z.of_nat n →
  popcount_pos p = bit_count (Z.testbit (Z.pos p)) n.
Proof.
  revert p. induction n as [|n IH]; intros p Hp.
  - simpl in Hp. lia.
  - rewrite Nat2Z.inj_succ, Z.pow_succ_r in Hp by lia.
    rewrite bit_count_succ_l.
    destruct p as [p|p|]; simpl popcount_pos.
    + rewrite (IH p) by lia. simpl Z.b2z. f_equal.
      apply bit_count_ext. intros k Hk.
      replace (1 + k) with (Z.succ k) by lia.
      symmetry. apply (Z.testbit_succ_r (Z.pos p) true k). lia.
    + rewrite (IH p) by lia. simpl Z.b2z.
      apply bit_count_ext. intros k Hk.
      replace (1 + k) with (Z.succ k) by lia.
      symmetry. apply (Z.testbit_succ_r (Z.pos p) false k). lia.
    + simpl Z.b2z. rewrite (bit_count_ext _ (λ _, false)), bit_count_false; [done |].
      intros k Hk. replace (1 + k) with (Z.succ k) by lia.
      rewrite <- (Z.bits_0 k). apply (Z.testbit_succ_r 0 true k). lia.
Qed.

Lemma builtin_popcount_bit_count w n :
  0 <= w < 2 ^ n → 0 <= n <= 64 →
  builtin_popcount w = bit_count (Z.testbit w) (Z.to_nat n).
Proof.
  intros Hw Hn. unfold builtin_popcount.
  assert (2 ^ n <= 2 ^ 64) by (apply Z.pow_le_mono_r; lia).
  rewrite Z.mod_small by lia.
  destruct w as [|p|p]; [| | lia].
  - rewrite (bit_count_ext _ (λ _, false)), bit_count_false; [done |].
    intros. apply Z.bits_0.
  - apply popcount_pos_bit_count. rewrite Z2Nat.id by lia. lia.
Qed.

Lemma low_words_popcount bits m :
  wf bits → (m < Z.to_nat W)%nat →
  bit_count (bit bits) (m * Z.to_nat S)
  = sum_popcount (drop (Z.to_nat W - m) bits).
Proof using N_pos N_fits.
  intros [Hsz Hr] Hm. pose proof S_range. pose proof W_bounds.
  unfold size in Hsz.
  induction m as [|m IH].
  - simpl. by rewrite drop_ge by lia.
  - replace (Datatypes.S m * Z.to_nat S)%nat
      with (m * Z.to_nat S + Z.to_nat S)%nat by lia.
    rewrite bit_count_add, IH by lia.
    set (i := W - 1 - Z.of_nat m).
    assert (bits !! (Z.to_nat W - Datatypes.S m)%nat = Some (word bits i)) as Hlk.
    { unfold word, i.
      replace (Z.to_nat (W - 1 - Z.of_nat m)) with (Z.to_nat W - Datatypes.S m)%nat by lia.
      destruct (bits !! (Z.to_nat W - Datatypes.S m)%nat) eqn:Hb; [done |].
      apply lookup_ge_None in Hb. lia. }
    rewrite (drop_S _ _ _ Hlk).
    replace (Datatypes.S (Z.to_nat W - Datatypes.S m)) with (Z.to_nat W - m)%nat by lia.
    unfold sum_popcount at 2. simpl. fold (sum_popcount (drop (Z.to_nat W - m) bits)).
    rewrite (builtin_popcount_bit_count (word bits i) S)
      by (try apply word_range; done || lia).
    rewrite Z.add_comm. f_equal. apply bit_count_ext. intros k Hk.
    unfold bit.
    destruct (div_mod_S (Z.of_nat (m * Z.to_nat S) + k) (Z.of_nat m) k) as [-> ->];
      [lia | nia |].
    done.
Qed.

(** [popcount] against the count of the set logical bits: equal when [N] is
    not a multiple of [S]; short of it by the whole top word otherwise. *)
Lemma popcount_logical bits :
  wf bits →
  popcount bits
  = Ok (logical_popcount bits
        - if N mod S =? 0 then builtin_popcount (word bits 0) else 0).
Proof using N_pos N_fits.
  intros Hwf. pose proof S_range. pose proof W_bounds.
  pose proof first_spec as [Hf HN].
  rewrite popcount_words by done. f_equal.
  unfold logical_popcount.
  replace (Z.to_nat N)
    with ((Z.to_nat W - 1) * Z.to_nat S + Z.to_nat first)%nat by nia.
  rewrite bit_count_add, low_words_popcount by (done || lia).
  replace (Z.to_nat W - (Z.to_nat W - 1))%nat with 1%nat by lia.
  assert (bit_count (λ k, bit bits (Z.of_nat ((Z.to_nat W - 1) * Z.to_nat S) + k))
            (Z.to_nat first)
          = bit_count (Z.testbit (word bits 0)) (Z.to_nat first)) as ->.
  { apply bit_count_ext. intros k Hk. unfold bit.
    destruct (div_mod_S (Z.of_nat ((Z.to_nat W - 1) * Z.to_nat S) + k) (W - 1) k)
      as [-> ->]; [lia | nia |].
    by replace (W - 1 - (W - 1)) with 0 by lia. }
  destruct Hwf as [Hsz Hr]. pose proof (word_range bits 0 Hr) as Hw0.
  unfold first in *. destruct (Z.eqb_spec (N mod S) 0) as [Hmod|Hmod]; cbn [negb] in *.
  - rewrite Z.eqb_refl.
    rewrite (builtin_popcount_bit_count (word bits 0) S) by (done || lia).
    lia.
  - pose proof (Z.mod_pos_bound N S ltac:(lia)).
    destruct (Z.eqb_spec (N mod S) S); [lia |].
    assert (0 < 2 ^ (N mod S)) by (apply Z.pow_pos_nonneg; lia).
    rewrite Z.sub_1_r, <- Z.ones_equiv, Z.land_comm, Z.land_ones by lia.
    rewrite (builtin_popcount_bit_count _ (N mod S))
      by (try apply Z.mod_pos_bound; lia).
    rewrite Z.sub_0_r, Z.add_comm. f_equal. apply bit_count_ext.
    intros k Hk. apply Z.mod_pow2_bits_low. lia.
Qed.

(** ** Shifting by at least the width *)

(** C7: for every value and every [pos >= N], [operator<<=] (and
    [operator<<]) is defined and yields a value all of whose logical bits
    in [0, N) test as 0 and whose [popcount] is 0. *)
Theorem shl_ge_N_zero bits pos :
  wf bits → N <= pos < 2 ^ SIZE_WIDTH →
  ∃ r, shl_assign bits pos = Ok r ∧ shl bits pos = Ok r ∧
       (∀ q, 0 <= q < N → test r q = Ok false) ∧
       popcount r = Ok 0.
Proof using N_pos N_fits.
  intros Hwf Hpos. pose proof S_range as HS. pose proof W_bounds as HW.
  pose proof first_spec as [Hf HN].
  assert (W - 1 <= pos / S) as Hupper by (apply Z.div_le_lower_bound; nia).
  assert (shl_defined pos) as Hdef by (unfold shl_defined; lia).
  destruct (shl_assign_bits bits pos Hwf ltac:(lia) Hdef) as (r & Hr & Hwfr & Hbit).
  destruct (shl_assign_words bits pos Hwf ltac:(lia) Hdef) as (r' & Hr' & _ & Hw).
  assert (r' = r) as -> by congruence.
  assert (size r = W) as Hsz by apply Hwfr.
  assert (∀ q, 0 <= q < N → bit r q = false) as Hzero.
  { intros q Hq. rewrite Hbit by done.
    destruct (Z.leb_spec pos q); [lia | done]. }
  exists r. split; [done |]. split; [done |]. split.
  - intros q Hq. rewrite test_spec by done. by rewrite Hzero.
  - apply popcount_zero; [done | |].
    + intros k Hk. specialize (Hzero ((W - 1) * S + k) ltac:(nia)).
      unfold bit in Hzero.
      destruct (div_mod_S ((W - 1) * S + k) (W - 1) k) as [Hd Hm]; [lia | done |].
      rewrite Hd, Hm in Hzero. by replace (W - 1 - (W - 1)) with 0 in Hzero by lia.
    + intros i Hi. rewrite Hw by lia. unfold shl_word.
      destruct (Z.ltb_spec (i + pos / S) W); [lia | done].
Qed.

(** ** The stored words as a number *)

Lemma value_snoc l w : value (l ++ [w]) = value l * 2 ^ S + w.
Proof. unfold value. by rewrite fold_left_app. Qed.

Lemma value_range l :
  Forall (λ w, 0 <= w < 2 ^ S) l → 0 <= value l < 2 ^ (S * size l).
Proof.
  pose proof S_range. unfold size.
  induction l as [|w l IH] using rev_ind; intros Hl.
  - simpl. rewrite Z.mul_0_r. unfold value. simpl. lia.
  - apply Forall_app in Hl as [Hl Hw]. apply Forall_inv in Hw.
    specialize (IH Hl). rewrite value_snoc, length_app. simpl.
    replace (S * Z.of_nat (length l + 1)) with (S * Z.of_nat (length l) + S) by lia.
    rewrite Z.pow_add_r by lia. nia.
Qed.

Lemma testbit_value_snoc l w q :
  0 <= w < 2 ^ S → 0 <= q →
  Z.testbit (value (l ++ [w])) q
  = if q <? S then Z.testbit w q else Z.testbit (value l) (q - S).
Proof.
  intros Hw Hq. pose proof S_range. rewrite value_snoc.
  assert (0 < 2 ^ S) by (apply Z.pow_pos_nonneg; lia).
  destruct (Z.ltb_spec q S).
  - rewrite <- (Z.mod_pow2_bits_low _ S) by lia.
    rewrite Z.add_comm, Z.mod_add by lia. by rewrite Z.mod_small.
  - replace q with (q - S + S) at 1 by lia.
    rewrite <- Z.div_pow2_bits by lia.
    rewrite Z.div_add_l by lia. rewrite Z.div_small by done.
    by rewrite Z.add_0_r.
Qed.

Lemma testbit_value l q :
  Forall (λ w, 0 <= w < 2 ^ S) l → 0 <= q < S * size l →
  Z.testbit (value l) q = Z.testbit (word l (size l - 1 - q / S)) (q mod S).
Proof.
  pose proof S_range. unfold size. revert q.
  induction l as [|w l IH] using rev_ind; intros q Hl Hq.
  - simpl in Hq. lia.
  - apply Forall_app in Hl as [Hl Hw]. apply Forall_inv in Hw.
    rewrite length_app in *. simpl in *.
    rewrite testbit_value_snoc by lia. unfold word in *.
    destruct (Z.ltb_spec q S).
    + rewrite Z.div_small, Z.mod_small by lia.
      rewrite list_lookup_middle by lia. done.
    + destruct (div_mod_S (q - S) (q / S - 1) (q mod S)) as [Hd Hm].
      { apply Z.mod_pos_bound. lia. }
      { pose proof (Z.div_mod q S ltac:(lia)). lia. }
      assert (1 <= q / S) by (apply Z.div_le_lower_bound; lia).
      assert (q / S < Z.of_nat (length l) + 1)
        by (apply Z.div_lt_upper_bound; lia).
      rewrite IH by (done || lia). rewrite Hd, Hm.
      rewrite lookup_app_l by lia. do 3 f_equal. lia.
Qed.

Lemma testbit_logical bits q :
  wf bits → 0 <= q < N → Z.testbit (logical bits) q = bit bits q.
Proof using N_pos N_fits.
  intros [Hsz Hr] Hq. pose proof W_bounds. unfold logical, bit.
  rewrite Z.mod_pow2_bits_low by lia.
  rewrite testbit_value by (done || nia). by rewrite Hsz.
Qed.

(** ** operator-- *)

Lemma dec_loop_step pre w suf :
  dec_loop (length pre + 1) (pre ++ w :: suf)
  = if negb (w =? 0) then Ok (pre ++ trunc (w - 1) :: suf)
    else dec_loop (length pre) (pre ++ trunc (w - 1) :: suf).
Proof.
  rewrite Nat.add_1_r. cbn [dec_loop].
  assert (0 <= Z.of_nat (length pre) < size (pre ++ w :: suf)) as Hi.
  { unfold size. rewrite length_app. simpl. lia. }
  assert (<[Z.to_nat (Z.of_nat (length pre)) := trunc (w - 1)]> (pre ++ w :: suf)
          = pre ++ trunc (w - 1) :: suf) as Hins.
  { rewrite Nat2Z.id. replace (length pre) with (length pre + 0)%nat at 1 by lia.
    by rewrite insert_app_r. }
  rewrite at_Ok by done. unfold word. rewrite Nat2Z.id.
  rewrite list_lookup_middle by done. cbn [default mbind result_bind].
  rewrite store_Ok by done. unfold id. rewrite Hins. by destruct (w =? 0).
Qed.

Lemma dec_loop_value pre :
  Forall (λ w, 0 <= w < 2 ^ S) pre →
  ∃ pre', (∀ suf, dec_loop (length pre) (pre ++ suf) = Ok (pre' ++ suf)) ∧
          length pre' = length pre ∧
          Forall (λ w, 0 <= w < 2 ^ S) pre' ∧
          value pre' = (value pre - 1) mod 2 ^ (S * size pre).
Proof.
  pose proof S_range.
  induction pre as [|w pre IH] using rev_ind; intros Hpre.
  - exists []. repeat split; try done. unfold size. simpl.
    rewrite Z.mul_0_r. simpl. by rewrite Z.mod_1_r.
  - apply Forall_app in Hpre as [Hpre Hw]. apply Forall_inv in Hw.
    assert (0 < 2 ^ S) by (apply Z.pow_pos_nonneg; lia).
    pose proof (value_range pre Hpre) as Hv.
    assert (size (pre ++ [w]) = size pre + 1) as Hsz
      by (unfold size; rewrite length_app; simpl; lia).
    rewrite Hsz. replace (S * (size pre + 1)) with (S * size pre + S) by lia.
    rewrite Z.pow_add_r by (unfold size; lia).
    rewrite length_app. simpl.
    destruct (Z.eqb_spec w 0) as [->|Hnz].
    + destruct (IH Hpre) as (pre' & Hdec & Hlen & Hr & Hval).
      exists (pre' ++ [trunc (0 - 1)]).
      split; [| split; [| split]].
      * intros suf. rewrite <- !app_assoc. simpl.
        rewrite dec_loop_step. simpl. apply Hdec.
      * by rewrite !length_app, Hlen.
      * apply Forall_app; split; [done |]. apply Forall_singleton, trunc_range.
      * rewrite !value_snoc, Hval. unfold trunc.
        assert ((0 - 1) mod 2 ^ S = 2 ^ S - 1) as ->.
        { symmetry. apply Z.mod_unique with (-1); lia. }
        set (M := 2 ^ (S * size pre)) in *.
        pose proof (Z.div_mod (value pre - 1) M ltac:(lia)).
        pose proof (Z.mod_pos_bound (value pre - 1) M ltac:(lia)).
        apply Z.mod_unique with ((value pre - 1) / M); nia.
    + exists (pre ++ [trunc (w - 1)]).
      split; [| split; [| split]].
      * intros suf. rewrite <- !app_assoc. simpl.
        rewrite dec_loop_step. by destruct (Z.eqb_spec w 0).
      * by rewrite !length_app.
      * apply Forall_app; split; [done |]. apply Forall_singleton, trunc_range.
      * rewrite !value_snoc, trunc_small by lia.
        rewrite Z.mod_small by nia. lia.
Qed.

Lemma mod_pow2_mod x n m :
  0 <= n <= m → (x mod 2 ^ m) mod 2 ^ n = x mod 2 ^ n.
Proof.
  intros Hnm. apply Z.bits_inj'. intros k Hk.
  destruct (Z.lt_ge_cases k n).
  - by rewrite !Z.mod_pow2_bits_low by lia.
  - by rewrite !Z.mod_pow2_bits_high by lia.
Qed.

Lemma dec_spec bits :
  wf bits →
  ∃ r, dec bits = Ok r ∧ wf r ∧ logical r = (logical bits - 1) mod 2 ^ N.
Proof using N_pos N_fits.
  intros [Hsz Hr]. pose proof W_bounds. pose proof S_range.
  destruct (dec_loop_value bits Hr) as (r & Hdec & Hlen & Hrr & Hval).
  specialize (Hdec []). rewrite !app_nil_r in Hdec.
  exists r. split; [done |]. split.
  - split; [| done]. unfold size in *. by rewrite Hlen.
  - unfold logical. rewrite Hval, Hsz, mod_pow2_mod by nia.
    by rewrite Zminus_mod_idemp_l.
Qed.

(** C4: pre-decrement is ripple-borrow subtraction of 1 on the logical
    value.  With the words taken from the last index towards index 0, a
    non-zero word is decremented and the chain stops; a zero word becomes
    the maximum of the word type and the borrow goes on into the words
    before it.  The logical value [k] becomes [(k - 1) mod 2^N], which
    [test] observes, and decrementing an all-zero value makes every
    position in [0, N) test as 1. *)
Theorem dec_ripple_borrow bits :
  wf bits →
  ∃ r, dec bits = Ok r ∧ wf r ∧
    logical r = (logical bits - 1) mod 2 ^ N ∧
    (∀ q, 0 <= q < N →
          test bits q = Ok (Z.testbit (logical bits) q) ∧
          test r q = Ok (Z.testbit ((logical bits - 1) mod 2 ^ N) q)) ∧
    ((∀ i, 0 <= i < W → word bits i = 0) →
     ∀ q, 0 <= q < N → test r q = Ok true) ∧
    (∀ pre w, bits = pre ++ [w] →
       (w ≠ 0 → r = pre ++ [w - 1]) ∧
       (w = 0 → ∃ pre', dec pre = Ok pre' ∧ r = pre' ++ [2 ^ S - 1])).
Proof using N_pos N_fits.
  intros Hwf. pose proof S_range. pose proof W_bounds.
  destruct (dec_spec bits Hwf) as (r & Hdec & Hwfr & Hlog).
  assert (size bits = W) as Hsz by apply Hwf.
  assert (size r = W) as Hszr by apply Hwfr.
  assert (∀ q, 0 <= q < N →
            test bits q = Ok (Z.testbit (logical bits) q) ∧
            test r q = Ok (Z.testbit ((logical bits - 1) mod 2 ^ N) q)) as Hobs.
  { intros q Hq. rewrite !test_spec by done.
    by rewrite <- Hlog, !testbit_logical by done. }
  exists r. split; [done |]. split; [done |]. split; [done |].
  split; [done |]. split.
  - intros Hzero q Hq. destruct (Hobs q Hq) as [_ ->]. f_equal.
    assert (logical bits = 0) as ->.
    { apply Z.bits_inj'. intros k Hk. rewrite Z.bits_0.
      destruct (Z.lt_ge_cases k N).
      - rewrite testbit_logical by (done || lia). unfold bit.
        pose proof (div_S_lt_W k ltac:(lia)).
        rewrite Hzero by lia. apply Z.bits_0.
      - unfold logical. apply Z.mod_pow2_bits_high. lia. }
    assert ((0 - 1) mod 2 ^ N = Z.ones N) as ->.
    { rewrite Z.ones_equiv. symmetry.
      assert (0 < 2 ^ N) by (apply Z.pow_pos_nonneg; lia).
      apply Z.mod_unique with (-1); lia. }
    apply Z.ones_spec_low. lia.
  - intros pre w ->. destruct Hwf as [_ Hr].
    apply Forall_app in Hr as [Hpre Hw]. apply Forall_inv in Hw.
    unfold dec in Hdec. rewrite length_app in Hdec. simpl in Hdec.
    rewrite dec_loop_step in Hdec.
    destruct (Z.eqb_spec w 0) as [->|Hnz]; simpl in Hdec.
    + split; [done |]. intros _.
      destruct (dec_loop_value pre Hpre) as (pre' & Hpre' & _).
      exists pre'. unfold dec. split.
      * specialize (Hpre' []). by rewrite !app_nil_r in Hpre'.
      * rewrite Hpre' in Hdec. injection Hdec as <-. unfold trunc.
        do 2 f_equal. assert (0 < 2 ^ S) by (apply Z.pow_pos_nonneg; lia).
        symmetry. apply Z.mod_unique with (-1); lia.
    + split; [| done]. intros _. rewrite trunc_small in Hdec by lia.
      by injection Hdec as <-.
Qed.

(** ** Construction *)

Lemma word_replicate_0 n i : word (replicate n 0) i = 0.
Proof.
  unfold word. destruct (replicate n 0 !! Z.to_nat i) as [w|] eqn:Hw; [| done].
  by apply lookup_replicate_1 in Hw as [-> _].
Qed.

Lemma wf_replicate_0 : wf (replicate (Z.to_nat W) 0).
Proof using N_pos N_fits.
  pose proof W_bounds. pose proof S_range. split.
  - unfold size. rewrite length_replicate. lia.
  - apply Forall_replicate. split; [lia |]. apply Z.pow_pos_nonneg; lia.
Qed.

(** C5 (amended): a value-initialised object ([uint_n x{}], [uint_n()])
    has all [W] words zero, so [test(pos)] is false for every [pos] in
    [0, N) and [popcount] is 0, whatever its memory held before. *)
Theorem value_init_all_zero mem :
  wf (uint_n_default ValueInit mem) ∧
  (∀ i, 0 <= i < W → word (uint_n_default ValueInit mem) i = 0) ∧
  (∀ pos, 0 <= pos < N → test (uint_n_default ValueInit mem) pos = Ok false) ∧
  popcount (uint_n_default ValueInit mem) = Ok 0.
Proof using N_pos N_fits.
  simpl. pose proof wf_replicate_0 as Hwf.
  assert (size (replicate (Z.to_nat W) 0) = W) as Hsz by apply Hwf.
  split; [done |]. split; [| split].
  - intros i _. apply word_replicate_0.
  - intros pos Hpos. rewrite test_spec by done. unfold bit.
    by rewrite word_replicate_0, Z.bits_0.
  - apply popcount_zero; [done | |].
    + intros k _. by rewrite word_replicate_0, Z.bits_0.
    + intros i _. apply word_replicate_0.
Qed.

(** The single-word constructor: zero everywhere but the last word. *)
Lemma uint_n_word_spec x :
  uint_n_word x = Ok (<[Z.to_nat (W - 1) := x]> (replicate (Z.to_nat W) 0)).
Proof using N_pos N_fits.
  pose proof W_bounds. unfold uint_n_word.
  assert (size (replicate (Z.to_nat W) 0) = W) as Hsz by apply wf_replicate_0.
  assert (2 ^ 61 < 2 ^ SIZE_WIDTH) by (unfold SIZE_WIDTH; lia).
  rewrite Hsz, sz_small by lia. by rewrite store_Ok by lia.
Qed.

(** ** Shifting by zero *)

(** Shift amount 0 is valid exactly for word types narrower than [int]
    and for single-word storage. *)
Lemma shl_defined_0 : shl_defined 0 ↔ S < promoted_width UINT_TYPE ∨ W <= 1.
Proof.
  pose proof S_range. unfold shl_defined.
  rewrite Z.mod_0_l, Z.div_0_l by lia. lia.
Qed.

Lemma shl_assign_0 bits :
  wf bits → shl_defined 0 → shl_assign bits 0 = Ok bits.
Proof using N_pos N_fits.
  intros Hwf Hdef. pose proof S_range.
  assert (0 <= 0 < 2 ^ SIZE_WIDTH) as H0 by (unfold SIZE_WIDTH; lia).
  destruct (shl_assign_words bits 0 Hwf H0 Hdef) as (r & Hr & Hwfr & Hw).
  rewrite Hr. f_equal. destruct Hwf as [Hsz Hrange], Hwfr as [Hszr _].
  apply storage_ext; [congruence |].
  intros i Hi. rewrite Hszr in Hi. rewrite Hw by done. unfold shl_word.
  rewrite Z.mod_0_l, Z.div_0_l, Z.add_0_r, Z.sub_0_r, Z.shiftl_0_r by lia.
  destruct (Z.ltb_spec i W); [| lia].
  pose proof (word_range bits i Hrange).
  rewrite (trunc_small (word bits i)) by done.
  destruct (Z.ltb_spec (i + 1) W); [| done].
  pose proof (word_range bits (i + 1) Hrange).
  rewrite Z.shiftr_div_pow2, Z.div_small, Z.lor_0_r by lia.
  by apply trunc_small.
Qed.

(** * Further properties of the operations *)

(** ** operator<<= as arithmetic, and when it is defined *)

(** X1: where its shift amounts are valid, [operator<<=] is defined, keeps
    the value well formed and multiplies the logical value by [2^pos]
    modulo [2^N]. *)
Theorem shl_logical_value bits pos :
  wf bits → 0 <= pos < 2 ^ SIZE_WIDTH → shl_defined pos →
  ∃ r, shl_assign bits pos = Ok r ∧ wf r ∧
       logical r = (logical bits * 2 ^ pos) mod 2 ^ N.
Proof using N_pos N_fits.
  intros Hwf Hpos Hdef.
  destruct (shl_assign_bits bits pos Hwf Hpos Hdef) as (r & Hr & Hwfr & Hbit).
  exists r. split; [done |]. split; [done |].
  apply Z.bits_inj'. intros k Hk.
  destruct (Z.lt_ge_cases k N) as [Hlt|Hge].
  - rewrite testbit_logical, Hbit by (done || lia).
    rewrite Z.mod_pow2_bits_low, Z.mul_pow2_bits by lia.
    destruct (Z.leb_spec pos k).
    + by rewrite testbit_logical by (done || lia).
    + by rewrite testbit_neg by lia.
  - unfold logical at 1. by rewrite !Z.mod_pow2_bits_high by lia.
Qed.

(** X2: on a well-formed value [operator<<=] either returns a well-formed
    value or is undefined, and it is undefined exactly when [pos] is a
    multiple of [S], the word type is not promoted to a wider type, and some
    word has a lower neighbour ([pos / S + 1 < W]). *)
Theorem shl_assign_undefined_iff bits pos :
  wf bits → 0 <= pos < 2 ^ SIZE_WIDTH →
  (shl_assign bits pos = Undefined ↔
   pos mod S = 0 ∧ promoted_width UINT_TYPE = S ∧ pos / S + 1 < W) ∧
  (shl_assign bits pos ≠ Undefined →
   ∃ r, shl_assign bits pos = Ok r ∧ wf r).
Proof using N_pos N_fits.
  intros Hwf Hpos. pose proof S_range. pose proof promoted_range.
  pose proof (Z.mod_pos_bound pos S ltac:(lia)).
  assert (shl_defined pos ∨ ¬ shl_defined pos) as [Hdef|Hundef]
    by (unfold shl_defined; lia).
  - destruct (shl_assign_words bits pos Hwf Hpos Hdef) as (r & Hr & Hwfr & _).
    split; [| by exists r]. rewrite Hr. split; [done |].
    unfold shl_defined in Hdef. lia.
  - rewrite (shl_assign_undefined bits pos Hwf Hpos Hundef).
    split; [| done]. split; [| done]. intros _.
    unfold shl_defined in Hundef. lia.
Qed.

(** X3: two shifts in a row are one shift by the sum on every logical bit,
    when all three shifts are defined. *)
Theorem shl_assign_compose bits a b :
  wf bits → 0 <= a → 0 <= b → a + b < 2 ^ SIZE_WIDTH →
  shl_defined a → shl_defined b → shl_defined (a + b) →
  ∃ r1 r2 r3,
    shl_assign bits a = Ok r1 ∧ shl_assign r1 b = Ok r2 ∧
    shl_assign bits (a + b) = Ok r3 ∧
    ∀ q, 0 <= q < N → test r2 q = test r3 q.
Proof using N_pos N_fits.
  intros Hwf Ha Hb Hab Hda Hdb Hdab.
  destruct (shl_assign_bits bits a Hwf ltac:(lia) Hda) as (r1 & Hr1 & Hwf1 & Hbit1).
  destruct (shl_assign_bits r1 b Hwf1 ltac:(lia) Hdb) as (r2 & Hr2 & Hwf2 & Hbit2).
  destruct (shl_assign_bits bits (a + b) Hwf ltac:(lia) Hdab)
    as (r3 & Hr3 & Hwf3 & Hbit3).
  exists r1, r2, r3. repeat split; try done.
  intros q Hq. destruct Hwf2 as [Hsz2 _], Hwf3 as [Hsz3 _].
  rewrite !test_spec by done. f_equal.
  rewrite Hbit2, Hbit3 by done.
  destruct (Z.leb_spec b q) as [Hbq|Hbq]; simpl.
  - rewrite Hbit1 by lia.
    replace (q - b - a) with (q - (a + b)) by lia.
    by destruct (Z.leb_spec a (q - b)), (Z.leb_spec (a + b) q); try lia.
  - by destruct (Z.leb_spec (a + b) q); try lia.
Qed.

(** ** popcount against the logical bits *)

Lemma bit_count_range f n : 0 <= bit_count f n <= Z.of_nat n.
Proof.
  induction n as [|n IH]; simpl bit_count; [lia |].
  destruct (f (Z.of_nat n)); simpl Z.b2z; lia.
Qed.

Lemma sum_popcount_nonneg ws :
  Forall (λ w, 0 <= w < 2 ^ S) ws → 0 <= sum_popcount ws.
Proof.
  induction 1 as [|w ws Hw _ IH]; unfold sum_popcount; simpl; [lia |].
  fold (sum_popcount ws). pose proof (builtin_popcount_range w Hw). lia.
Qed.

(** X4: when [N] is not a multiple of [S], [popcount] of a well-formed
    value is the number of set bits among the logical positions [0, N):
    padding bits of the top word are never counted. *)
Theorem popcount_counts_logical_bits bits :
  wf bits → N mod S ≠ 0 →
  popcount bits = Ok (logical_popcount bits) ∧
  0 <= logical_popcount bits <= N.
Proof using N_pos N_fits.
  intros Hwf HN. rewrite popcount_logical by done.
  destruct (Z.eqb_spec (N mod S) 0); [done |]. rewrite Z.sub_0_r.
  split; [done |]. unfold logical_popcount.
  pose proof (bit_count_range (bit bits) (Z.to_nat N)). lia.
Qed.

(** X5: [popcount] of a well-formed value always returns, and its result is
    between 0 and the number of set logical bits, hence at most [N]. *)
Theorem popcount_range bits :
  wf bits →
  ∃ c, popcount bits = Ok c ∧ 0 <= c <= logical_popcount bits ∧
       logical_popcount bits <= N.
Proof using N_pos N_fits.
  intros Hwf. pose proof (popcount_logical bits Hwf) as Hlog.
  pose proof (popcount_words bits Hwf) as Hwords.
  pose proof S_range. pose proof first_spec as [Hf _].
  destruct Hwf as [Hsz Hr].
  pose proof (word_range bits 0 Hr) as Hw0.
  pose proof (builtin_popcount_range (word bits 0) Hw0).
  assert (0 <= sum_popcount (drop 1 bits))
    by (apply sum_popcount_nonneg; by apply Forall_drop).
  pose proof (bit_count_range (bit bits) (Z.to_nat N)).
  fold (logical_popcount bits) in *.
  eexists. split; [exact Hlog |].
  rewrite Hlog in Hwords. injection Hwords as Hc.
  assert (0 <= if first =? S then 0
               else builtin_popcount (Z.land (2 ^ first - 1) (word bits 0))).
  { destruct (first =? S); [lia |].
    apply builtin_popcount_range. rewrite Z.land_comm.
    apply land_range; [done |].
    assert (0 < 2 ^ first) by (apply Z.pow_pos_nonneg; lia). lia. }
  destruct (N mod S =? 0); lia.
Qed.

(** ** The single-word constructor *)

(** X6: [uint_n(x)] for a word [x] gives a well-formed value whose words are
    zero except the last, whose bit [pos] is bit [pos] of [x] for every
    [pos] in [0, N), and whose logical value is [x mod 2^N]. *)
Theorem uint_n_word_roundtrip x :
  0 <= x < 2 ^ S →
  ∃ v, uint_n_word x = Ok v ∧ wf v ∧
       (∀ i, 0 <= i < W - 1 → word v i = 0) ∧
       (∀ pos, 0 <= pos < N → test v pos = Ok (Z.testbit x pos)) ∧
       logical v = x mod 2 ^ N.
Proof using N_pos N_fits.
  intros Hx. pose proof S_range. pose proof W_bounds.
  pose proof wf_replicate_0 as Hz. assert (size (replicate (Z.to_nat W) 0) = W)
    as Hsz by apply Hz.
  rewrite uint_n_word_spec. eexists. split; [done |].
  set (v := <[Z.to_nat (W - 1) := x]> (replicate (Z.to_nat W) 0)).
  assert (wf v) as Hwf by (by apply wf_insert).
  assert (∀ pos, 0 <= pos < N → bit v pos = Z.testbit x pos) as Hbit.
  { intros pos Hpos. pose proof (div_S_lt_W pos Hpos). unfold bit, v.
    destruct (Z.eq_dec (pos / S) 0) as [Hd|Hd].
    - rewrite Hd, Z.sub_0_r, word_insert_eq by lia.
      pose proof (Z.div_mod pos S ltac:(lia)). f_equal. lia.
    - rewrite word_insert_ne, word_replicate_0, Z.bits_0 by lia.
      symmetry. apply testbit_high; [done |].
      pose proof (Z.div_mod pos S ltac:(lia)).
      pose proof (Z.mod_pos_bound pos S ltac:(lia)). nia. }
  split; [done |]. split; [| split].
  - intros i Hi. unfold v. by rewrite word_insert_ne, word_replicate_0 by lia.
  - intros pos Hpos. rewrite test_spec by (apply Hwf || done). by rewrite Hbit.
  - apply Z.bits_inj'. intros k Hk. destruct (Z.lt_ge_cases k N).
    + rewrite testbit_logical, Hbit by (done || lia).
      by rewrite Z.mod_pow2_bits_low by lia.
    + unfold logical. by rewrite !Z.mod_pow2_bits_high by lia.
Qed.

(** ** test, set and unset outside their precondition *)

(** With [NDEBUG] defined the assertion checks nothing, whatever
    [TSL_DEBUG] is. *)
Lemma tsl_uint_assert_NDEBUG expr : NDEBUG = true → tsl_uint_assert expr = Ok tt.
Proof. intros Hnd. unfold tsl_uint_assert, assert_. rewrite Hnd. by destruct TSL_DEBUG. Qed.

(** X7: compiled with [TSL_DEBUG] and without [NDEBUG], so that [assert]
    is active, [test], [set] and [unset] abort on the assertion for every
    [pos >= N], before any word is read or written. *)
Theorem debug_rejects_out_of_range bits pos :
  TSL_DEBUG = true → NDEBUG = false → N <= pos →
  test bits pos = AssertFailed ∧
  set bits pos = AssertFailed ∧
  unset bits pos = AssertFailed.
Proof.
  intros Hdbg Hnd Hpos.
  unfold test, set, unset, tsl_uint_assert, assert_. rewrite Hdbg, Hnd.
  by destruct (Z.ltb_spec pos N); [lia |].
Qed.

Lemma word_index_beyond bits pos :
  size bits = W → W * S <= pos < 2 ^ SIZE_WIDTH →
  at_ bits (word_index bits pos) = Undefined.
Proof using N_pos N_fits.
  intros Hsz Hpos. pose proof S_range. pose proof W_bounds.
  unfold SIZE_WIDTH in *.
  assert (2 ^ 64 = 8 * 2 ^ 61) as H64 by reflexivity.
  assert (W <= pos / S) by (apply Z.div_le_lower_bound; lia).
  assert (pos / S < 2 ^ 61) by (apply Z.div_lt_upper_bound; nia).
  assert (W <= word_index bits pos) as Hidx.
  { unfold word_index, sz, SIZE_WIDTH. rewrite Hsz, Zminus_mod_idemp_l.
    replace (W - pos / S - 1) with (2 ^ 64 + (W - pos / S - 1) + -1 * 2 ^ 64) by lia.
    rewrite Z.mod_add, Z.mod_small by lia. lia. }
  unfold at_. rewrite Hsz.
  destruct (Z.ltb_spec (word_index bits pos) W); [lia |].
  by rewrite andb_false_r.
Qed.

(** X8: compiled without [TSL_DEBUG], a position at or beyond the stored
    [W * S] bits makes the word index wrap around in [size_t]: [test],
    [set] and [unset] index outside the array, which is undefined. *)
Theorem release_beyond_storage_undefined bits pos :
  TSL_DEBUG = false → size bits = W → W * S <= pos < 2 ^ SIZE_WIDTH →
  test bits pos = Undefined ∧
  set bits pos = Undefined ∧
  unset bits pos = Undefined.
Proof using N_pos N_fits.
  intros Hdbg Hsz Hpos. unfold test, set, unset, tsl_uint_assert.
  rewrite Hdbg. simpl. by rewrite word_index_beyond.
Qed.

(** X9: compiled without [TSL_DEBUG], a position in the padding of the top
    word ([N <= pos < W * S]) is accepted.  [test] reads the padding bit at
    offset [pos mod S] of word 0.  [set] sets that bit and [unset] clears it,
    as [test] then shows, and neither changes any other bit of any word: the
    other padding bits are kept and every logical position in [0, N) tests
    as before. *)
Theorem release_padding_position bits pos :
  TSL_DEBUG = false → size bits = W → N <= pos < W * S →
  first <= pos mod S ∧
  test bits pos = Ok (Z.testbit (word bits 0) (pos mod S)) ∧
  ∃ s u,
    set bits pos = Ok s ∧ unset bits pos = Ok u ∧
    size s = W ∧ size u = W ∧
    test s pos = Ok true ∧ test u pos = Ok false ∧
    (∀ i k, 0 <= i < W → 0 <= k < S →
       Z.testbit (word s i) k
       = Z.testbit (word bits i) k || ((i =? 0) && (k =? pos mod S))) ∧
    (∀ i k, 0 <= i < W → 0 <= k < S →
       Z.testbit (word u i) k
       = Z.testbit (word bits i) k && negb ((i =? 0) && (k =? pos mod S))) ∧
    (∀ q, 0 <= q < N →
          test s q = test bits q ∧ test u q = test bits q).
Proof using N_pos N_fits.
  intros Hdbg Hsz Hpos. pose proof S_range. pose proof W_bounds.
  pose proof first_spec as [Hf HN].
  destruct (div_mod_S pos (W - 1) (pos - (W - 1) * S)) as [Hd Hm]; [lia | lia |].
  assert (2 ^ 61 < 2 ^ SIZE_WIDTH) by (unfold SIZE_WIDTH; lia).
  assert (∀ v, size v = W → word_index v pos = 0) as Hidx.
  { intros v Hv. unfold word_index. rewrite Hv, Hd.
    replace (W - (W - 1)) with 1 by lia.
    rewrite (sz_small 1) by lia. apply sz_small. lia. }
  split; [lia |].
  assert (tsl_uint_assert (pos <? N) = Ok tt) as Hassert
    by (unfold tsl_uint_assert; by rewrite Hdbg).
  assert (∀ v, size v = W →
               test v pos = Ok (Z.testbit (word v 0) (pos mod S))) as Htest.
  { intros v Hv. unfold test. rewrite Hassert, (Hidx v Hv). simpl.
    rewrite at_Ok by lia. simpl. rewrite word_shl_one by lia. simpl.
    by rewrite land_pow2_nonzero by lia. }
  assert (set bits pos
          = Ok (<[Z.to_nat 0 := trunc (Z.lor (word bits 0) (2 ^ (pos mod S)))]> bits))
    as Hset.
  { unfold set. rewrite Hassert, (Hidx bits Hsz). simpl.
    rewrite at_Ok by lia. simpl. rewrite word_shl_one by lia. simpl.
    by rewrite store_Ok by lia. }
  assert (unset bits pos
          = Ok (<[Z.to_nat 0 :=
                   trunc (Z.land (word bits 0) (Z.lnot (2 ^ (pos mod S))))]> bits))
    as Hunset.
  { unfold unset. rewrite Hassert, (Hidx bits Hsz). simpl.
    rewrite at_Ok by lia. simpl. rewrite word_shl_one by lia. simpl.
    by rewrite store_Ok by lia. }
  split; [by apply Htest |]. do 2 eexists.
  split; [exact Hset |]. split; [exact Hunset |].
  split; [by rewrite size_insert |]. split; [by rewrite size_insert |].
  split; [| split; [| split; [| split]]].
  - rewrite Htest by (by rewrite size_insert). f_equal.
    rewrite word_insert_eq, testbit_set_word by lia.
    by rewrite Z.eqb_refl, orb_true_r.
  - rewrite Htest by (by rewrite size_insert). f_equal.
    rewrite word_insert_eq, testbit_unset_word by lia.
    by rewrite Z.eqb_refl, andb_false_r.
  - intros i k Hi Hk. destruct (Z.eqb_spec i 0) as [->|Hne].
    + rewrite word_insert_eq, testbit_set_word by lia.
      by rewrite (Z.eqb_sym k).
    + rewrite word_insert_ne by lia. by rewrite orb_false_r.
  - intros i k Hi Hk. destruct (Z.eqb_spec i 0) as [->|Hne].
    + rewrite word_insert_eq, testbit_unset_word by lia.
      by rewrite (Z.eqb_sym k).
    + rewrite word_insert_ne by lia. by rewrite andb_true_r.
  - intros q Hq. rewrite !test_spec by (by rewrite ?size_insert).
    pose proof (div_S_lt_W q Hq). pose proof (Z.mod_pos_bound q S ltac:(lia)).
    unfold bit.
    destruct (Z.eq_dec (q / S) (W - 1)) as [Hq1|Hq1].
    + pose proof (Z.div_mod q S ltac:(lia)).
      rewrite Hq1. replace (W - 1 - (W - 1)) with 0 by lia.
      rewrite !word_insert_eq by lia.
      rewrite testbit_set_word, testbit_unset_word by lia.
      destruct (Z.eqb_spec (pos mod S) (q mod S)); [nia |].
      by rewrite orb_false_r, andb_true_r.
    + by rewrite !word_insert_ne by lia.
Qed.

(** ** How set and unset compose *)

Lemma storage_ext_bits a b :
  wf a → wf b →
  (∀ i k, 0 <= i < W → 0 <= k < S →
          Z.testbit (word a i) k = Z.testbit (word b i) k) →
  a = b.
Proof.
  intros [Ha Har] [Hb Hbr] Hbits. apply storage_ext; [congruence |].
  intros i Hi. rewrite Ha in Hi. apply Z.bits_inj'. intros k Hk.
  destruct (Z.lt_ge_cases k S).
  - apply Hbits; lia.
  - by rewrite !testbit_high by (try apply word_range; done).
Qed.

Lemma set_word_bits bits pos s :
  wf bits → 0 <= pos < N → set bits pos = Ok s →
  wf s ∧
  ∀ i k, 0 <= i < W → 0 <= k < S →
    Z.testbit (word s i) k
    = Z.testbit (word bits i) k || ((i =? W - 1 - pos / S) && (pos mod S =? k)).
Proof using N_pos N_fits.
  intros Hwf Hpos Hs. pose proof S_range. pose proof (div_S_lt_W pos Hpos).
  pose proof (Z.mod_pos_bound pos S ltac:(lia)).
  rewrite set_spec in Hs by (apply Hwf || done). injection Hs as <-.
  split; [apply wf_insert; [done | apply trunc_range] |].
  intros i k Hi Hk. destruct (Z.eqb_spec i (W - 1 - pos / S)) as [->|Hne].
  - rewrite word_insert_eq by (destruct Hwf as [-> _]; lia).
    by rewrite testbit_set_word by lia.
  - rewrite word_insert_ne by lia. by rewrite orb_false_r.
Qed.

Lemma unset_word_bits bits pos u :
  wf bits → 0 <= pos < N → unset bits pos = Ok u →
  wf u ∧
  ∀ i k, 0 <= i < W → 0 <= k < S →
    Z.testbit (word u i) k
    = Z.testbit (word bits i) k
      && negb ((i =? W - 1 - pos / S) && (pos mod S =? k)).
Proof using N_pos N_fits.
  intros Hwf Hpos Hu. pose proof S_range. pose proof (div_S_lt_W pos Hpos).
  pose proof (Z.mod_pos_bound pos S ltac:(lia)).
  rewrite unset_spec in Hu by (apply Hwf || done). injection Hu as <-.
  split; [apply wf_insert; [done | apply trunc_range] |].
  intros i k Hi Hk. destruct (Z.eqb_spec i (W - 1 - pos / S)) as [->|Hne].
  - rewrite word_insert_eq by (destruct Hwf as [-> _]; lia).
    by rewrite testbit_unset_word by lia.
  - rewrite word_insert_ne by lia. by rewrite andb_true_r.
Qed.

Lemma set_Ok bits pos :
  wf bits → 0 <= pos < N → ∃ s, set bits pos = Ok s.
Proof using N_pos N_fits.
  intros [Hsz _] Hpos. eexists. by apply set_spec.
Qed.

Lemma unset_Ok bits pos :
  wf bits → 0 <= pos < N → ∃ u, unset bits pos = Ok u.
Proof using N_pos N_fits.
  intros [Hsz _] Hpos. eexists. by apply unset_spec.
Qed.

(** X10: [set] and [unset] are idempotent on the stored words: a second
    call at the same position returns the value unchanged. *)
Theorem set_unset_idempotent bits pos :
  wf bits → 0 <= pos < N →
  ∃ s u, set bits pos = Ok s ∧ set s pos = Ok s ∧
         unset bits pos = Ok u ∧ unset u pos = Ok u.
Proof using N_pos N_fits.
  intros Hwf Hpos.
  destruct (set_Ok bits pos Hwf Hpos) as [s Hs].
  destruct (unset_Ok bits pos Hwf Hpos) as [u Hu].
  destruct (set_word_bits bits pos s Hwf Hpos Hs) as [Hwfs Hsb].
  destruct (unset_word_bits bits pos u Hwf Hpos Hu) as [Hwfu Hub].
  destruct (set_Ok s pos Hwfs Hpos) as [s' Hs'].
  destruct (unset_Ok u pos Hwfu Hpos) as [u' Hu'].
  destruct (set_word_bits s pos s' Hwfs Hpos Hs') as [Hwfs' Hsb'].
  destruct (unset_word_bits u pos u' Hwfu Hpos Hu') as [Hwfu' Hub'].
  assert (s' = s) as ->.
  { apply storage_ext_bits; [done | done |]. intros i k Hi Hk.
    rewrite Hsb', Hsb by done.
    by destruct (Z.testbit (word bits i) k),
                ((i =? W - 1 - pos / S) && (pos mod S =? k)). }
  assert (u' = u) as ->.
  { apply storage_ext_bits; [done | done |]. intros i k Hi Hk.
    rewrite Hub', Hub by done.
    by destruct (Z.testbit (word bits i) k),
                ((i =? W - 1 - pos / S) && (pos mod S =? k)). }
  by exists s, u.
Qed.

Lemma distinct_positions p q i k :
  p ≠ q →
  (i =? W - 1 - p / S) && (p mod S =? k) = true →
  (i =? W - 1 - q / S) && (q mod S =? k) = false.
Proof.
  intros Hne Hp. apply andb_true_iff in Hp as [Hi Hk].
  apply Z.eqb_eq in Hi, Hk. apply andb_false_iff.
  destruct (Z.eqb_spec i (W - 1 - q / S)) as [Hi'|]; [| by left].
  destruct (Z.eqb_spec (q mod S) k) as [Hk'|]; [| by right].
  destruct Hne. apply same_position; lia.
Qed.

(** X11: calls at two different positions commute: [set] with [set],
    [unset] with [unset], and [set] with [unset] give the same stored words
    in either order. *)
Theorem set_unset_commute bits p q :
  wf bits → 0 <= p < N → 0 <= q < N → p ≠ q →
  (∃ r, (s ← set bits p; set s q) = Ok r ∧ (s ← set bits q; set s p) = Ok r) ∧
  (∃ r, (u ← unset bits p; unset u q) = Ok r ∧
        (u ← unset bits q; unset u p) = Ok r) ∧
  (∃ r, (s ← set bits p; unset s q) = Ok r ∧
        (u ← unset bits q; set u p) = Ok r).
Proof using N_pos N_fits.
  intros Hwf Hp Hq Hne.
  destruct (set_Ok bits p Hwf Hp) as [sp Hsp].
  destruct (set_Ok bits q Hwf Hq) as [sq Hsq].
  destruct (unset_Ok bits p Hwf Hp) as [up Hup].
  destruct (unset_Ok bits q Hwf Hq) as [uq Huq].
  destruct (set_word_bits bits p sp Hwf Hp Hsp) as [Hwsp Hbsp].
  destruct (set_word_bits bits q sq Hwf Hq Hsq) as [Hwsq Hbsq].
  destruct (unset_word_bits bits p up Hwf Hp Hup) as [Hwup Hbup].
  destruct (unset_word_bits bits q uq Hwf Hq Huq) as [Hwuq Hbuq].
  destruct (set_Ok sp q Hwsp Hq) as [spq Hspq].
  destruct (set_Ok sq p Hwsq Hp) as [sqp Hsqp].
  destruct (unset_Ok up q Hwup Hq) as [upq Hupq].
  destruct (unset_Ok uq p Hwuq Hp) as [uqp Huqp].
  destruct (unset_Ok sp q Hwsp Hq) as [spuq Hspuq].
  destruct (set_Ok uq p Hwuq Hp) as [uqsp Huqsp].
  destruct (set_word_bits sp q spq Hwsp Hq Hspq) as [W1 B1].
  destruct (set_word_bits sq p sqp Hwsq Hp Hsqp) as [W2 B2].
  destruct (unset_word_bits up q upq Hwup Hq Hupq) as [W3 B3].
  destruct (unset_word_bits uq p uqp Hwuq Hp Huqp) as [W4 B4].
  destruct (unset_word_bits sp q spuq Hwsp Hq Hspuq) as [W5 B5].
  destruct (set_word_bits uq p uqsp Hwuq Hp Huqsp) as [W6 B6].
  rewrite Hsp, Hsq, Hup, Huq. simpl.
  rewrite Hspq, Hsqp, Hupq, Huqp, Hspuq, Huqsp.
  split; [| split].
  - exists spq. split; [done |]. f_equal. apply storage_ext_bits; [done | done |].
    intros i k Hi Hk. rewrite B1, B2, Hbsp, Hbsq by done.
    by destruct (Z.testbit (word bits i) k),
                ((i =? W - 1 - p / S) && (p mod S =? k)),
                ((i =? W - 1 - q / S) && (q mod S =? k)).
  - exists upq. split; [done |]. f_equal. apply storage_ext_bits; [done | done |].
    intros i k Hi Hk. rewrite B3, B4, Hbup, Hbuq by done.
    by destruct (Z.testbit (word bits i) k),
                ((i =? W - 1 - p / S) && (p mod S =? k)),
                ((i =? W - 1 - q / S) && (q mod S =? k)).
  - exists spuq. split; [done |]. f_equal. apply storage_ext_bits; [done | done |].
    intros i k Hi Hk. rewrite B5, B6, Hbsp, Hbuq by done.
    pose proof (distinct_positions p q i k Hne) as Hd.
    destruct ((i =? W - 1 - p / S) && (p mod S =? k)).
    + rewrite (Hd eq_refl). by destruct (Z.testbit (word bits i) k).
    + by destruct (Z.testbit (word bits i) k),
                  ((i =? W - 1 - q / S) && (q mod S =? k)).
Qed.

Lemma bit_count_update f g n p :
  0 <= p < Z.of_nat n →
  (∀ k, 0 <= k < Z.of_nat n → k ≠ p → g k = f k) →
  bit_count g n = bit_count f n + Z.b2z (g p) - Z.b2z (f p).
Proof.
  induction n as [|n IH]; intros Hp Hfg; [lia |].
  simpl bit_count. destruct (Z.eq_dec p (Z.of_nat n)) as [->|Hne].
  - rewrite (bit_count_ext g f) by (intros; apply Hfg; lia). lia.
  - rewrite IH by (lia || intros; apply Hfg; lia).
    rewrite (Hfg (Z.of_nat n)) by lia. lia.
Qed.

(** X12: when [N] is not a multiple of [S], [set] on a clear bit raises
    [popcount] by exactly one and [unset] on a set bit lowers it by exactly
    one; on a bit that already has the requested value [popcount] is
    unchanged. *)
Theorem popcount_after_set_unset bits pos :
  wf bits → 0 <= pos < N → N mod S ≠ 0 →
  ∃ b c s u,
    test bits pos = Ok b ∧ popcount bits = Ok c ∧
    set bits pos = Ok s ∧ popcount s = Ok (c + if b then 0 else 1) ∧
    unset bits pos = Ok u ∧ popcount u = Ok (c - if b then 1 else 0).
Proof using N_pos N_fits.
  intros Hwf Hpos HN.
  destruct (set_Ok bits pos Hwf Hpos) as [s Hs].
  destruct (unset_Ok bits pos Hwf Hpos) as [u Hu].
  destruct (set_word_bits bits pos s Hwf Hpos Hs) as [Hwfs _].
  destruct (unset_word_bits bits pos u Hwf Hpos Hu) as [Hwfu _].
  assert (size bits = W) as Hsz by apply Hwf.
  exists (bit bits pos), (logical_popcount bits), s, u.
  rewrite test_spec by done.
  rewrite !popcount_logical by done.
  destruct (Z.eqb_spec (N mod S) 0); [done |]. rewrite !Z.sub_0_r.
  assert (∀ k, 0 <= k < Z.of_nat (Z.to_nat N) → k ≠ pos → bit s k = bit bits k)
    as Hfs.
  { intros k Hk Hne. rewrite (bit_set bits pos k s) by (done || lia).
    destruct (Z.eqb_spec pos k); [lia | apply orb_false_r]. }
  assert (∀ k, 0 <= k < Z.of_nat (Z.to_nat N) → k ≠ pos → bit u k = bit bits k)
    as Hfu.
  { intros k Hk Hne. rewrite (bit_unset bits pos k u) by (done || lia).
    destruct (Z.eqb_spec pos k); [lia | apply andb_true_r]. }
  repeat split; try done; f_equal; unfold logical_popcount.
  - rewrite (bit_count_update (bit bits) (bit s) (Z.to_nat N) pos ltac:(lia) Hfs).
    rewrite (bit_set bits pos pos s), Z.eqb_refl, orb_true_r by done.
    destruct (bit bits pos); simpl; lia.
  - rewrite (bit_count_update (bit bits) (bit u) (Z.to_nat N) pos ltac:(lia) Hfu).
    rewrite (bit_unset bits pos pos u), Z.eqb_refl, andb_false_r by done.
    destruct (bit bits pos); simpl; lia.
Qed.

(** ** Algebra of operator& *)

Lemma and_assign_zero_words x :
  wf x → and_assign x (replicate (Z.to_nat W) 0) = Ok (replicate (Z.to_nat W) 0).
Proof using N_pos N_fits.
  intros Hx. pose proof wf_replicate_0 as Hz.
  destruct (and_assign_spec x _ Hx Hz) as (r & Hr & Hwf & Hw).
  rewrite Hr. f_equal. apply storage_ext.
  - destruct Hwf, Hz. congruence.
  - intros i Hi. destruct Hwf as [Hsz _]. rewrite Hsz in Hi.
    by rewrite Hw, !word_replicate_0, Z.land_0_r by done.
Qed.

(** X13: bitwise AND of a well-formed value with itself is that value, and
    AND with the all-zero value, on either side, is the all-zero value. *)
Theorem and_idempotent_zero x :
  wf x →
  band x x = Ok x ∧
  band x (uint_n_default ValueInit []) = Ok (uint_n_default ValueInit []) ∧
  band (uint_n_default ValueInit []) x = Ok (uint_n_default ValueInit []).
Proof using N_pos N_fits.
  intros Hx. unfold band. simpl. pose proof wf_replicate_0 as Hz.
  split; [| split].
  - destruct (and_assign_spec x x Hx Hx) as (r & Hr & Hwf & Hw).
    rewrite Hr. f_equal. apply storage_ext.
    + destruct Hwf, Hx. congruence.
    + intros i Hi. destruct Hwf as [Hsz _]. rewrite Hsz in Hi.
      rewrite Hw by done. apply Z.land_diag.
  - by apply and_assign_zero_words.
  - destruct (and_assign_spec _ x Hz Hx) as (r & Hr & Hwf & Hw).
    rewrite Hr. f_equal. apply storage_ext.
    + destruct Hwf, Hz. congruence.
    + intros i Hi. destruct Hwf as [Hsz _]. rewrite Hsz in Hi.
      by rewrite Hw, !word_replicate_0, Z.land_0_l by done.
Qed.

(** X14: bitwise AND is associative on the stored words. *)
Theorem and_associative x y z :
  wf x → wf y → wf z →
  ∃ r, (xy ← band x y; band xy z) = Ok r ∧ (yz ← band y z; band x yz) = Ok r.
Proof using N_pos N_fits.
  intros Hx Hy Hz. unfold band.
  destruct (and_assign_spec x y Hx Hy) as (xy & Hxy & Hwxy & Wxy).
  destruct (and_assign_spec y z Hy Hz) as (yz & Hyz & Hwyz & Wyz).
  destruct (and_assign_spec xy z Hwxy Hz) as (r & Hr & Hwr & Wr).
  destruct (and_assign_spec x yz Hx Hwyz) as (r' & Hr' & Hwr' & Wr').
  rewrite Hxy, Hyz. simpl. rewrite Hr, Hr'. exists r. split; [done |].
  f_equal. apply storage_ext.
  - destruct Hwr, Hwr'. congruence.
  - intros i Hi. destruct Hwr' as [Hsz _]. rewrite Hsz in Hi.
    rewrite Wr, Wr', Wxy, Wyz by done. by rewrite Z.land_assoc.
Qed.

(** ** operator-- on the stored words *)

Lemma dec_loop_zeros n suf :
  dec_loop n (replicate n 0 ++ suf) = Ok (replicate n (2 ^ S - 1) ++ suf).
Proof.
  pose proof S_range. assert (0 < 2 ^ S) by (apply Z.pow_pos_nonneg; lia).
  assert (trunc (0 - 1) = 2 ^ S - 1) as Hmax.
  { unfold trunc. symmetry. apply Z.mod_unique with (-1); lia. }
  revert suf. induction n as [|n IH]; intros suf; [done |].
  rewrite !replicate_S_end, <- !app_assoc. simpl app.
  pose proof (dec_loop_step (replicate n 0) 0 suf) as Hstep.
  rewrite length_replicate, Nat.add_1_r in Hstep. rewrite Hstep.
  change (negb (0 =? 0)) with false. cbv iota. by rewrite Hmax, IH.
Qed.

(** X15: [operator--] subtracts one from the whole stored number, padding
    bits included, modulo [2^(S*W)]; on the all-zero value every stored
    word becomes the maximum [2^S - 1], so the padding bits of word 0 are
    set as well. *)
Theorem dec_stored_value bits :
  wf bits →
  (∃ r, dec bits = Ok r ∧ wf r ∧
        value r = (value bits - 1) mod 2 ^ (S * W)) ∧
  dec (replicate (Z.to_nat W) 0) = Ok (replicate (Z.to_nat W) (2 ^ S - 1)).
Proof using N_pos N_fits.
  intros [Hsz Hr]. split.
  - destruct (dec_loop_value bits Hr) as (r & Hdec & Hlen & Hrr & Hval).
    specialize (Hdec []). rewrite !app_nil_r in Hdec.
    exists r. split; [done |]. split.
    + split; [| done]. unfold size in *. by rewrite Hlen.
    + by rewrite Hval, Hsz.
  - unfold dec. rewrite length_replicate.
    pose proof (dec_loop_zeros (Z.to_nat W) []) as Hz.
    by rewrite !app_nil_r in Hz.
Qed.

(** ** operator<< on a stream *)














(** ** builtin_popcount *)

(** X17: [builtin_popcount] of any argument is the number of set bits among
    the low 64 bits of the argument, a count between 0 and 64. *)
Theorem builtin_popcount_counts_bits x :
  builtin_popcount x = bit_count (Z.testbit x) 64 ∧
  0 <= builtin_popcount x <= 64.
Proof.
  assert (builtin_popcount x = bit_count (Z.testbit x) 64) as Hcount.
  { assert (builtin_popcount x = builtin_popcount (x mod 2 ^ 64)) as ->.
    { unfold builtin_popcount. by rewrite Z.mod_mod by lia. }
    rewrite (builtin_popcount_bit_count (x mod 2 ^ 64) 64)
      by (try apply Z.mod_pos_bound; lia).
    apply bit_count_ext. intros k Hk. apply Z.mod_pow2_bits_low. lia. }
  split; [done |]. rewrite Hcount.
  pose proof (bit_count_range (Z.testbit x) 64). lia.
Qed.

End uint_n.

(** * Concrete instantiations *)

Ltac solve_wf :=
  split; [reflexivity | repeat constructor; unfold S; simpl; lia].

Ltac solve_fits := unfold S, SIZE_WIDTH; simpl; lia.

(** The cases of [tests/uint_n_tests.cpp], with [uint8_t] words. *)

Example test_constructor_from_int : uint_n_word uint8_t 2 1 = Ok [1].
Proof. reflexivity. Qed.

Example test_shift_left_operator :
  (x ← uint_n_word uint8_t 1 1; shl_assign uint8_t x 1) = Ok [2] ∧
  shl_assign uint8_t [0; 169] 3 = Ok [5; 72] ∧
  shl_assign uint8_t [0; 169; 8; 4] 9 = Ok [82; 16; 8; 0].
Proof. repeat split. Qed.

Example test_operator_pre_decrement :
  dec uint8_t [1] = Ok [0] ∧ dec uint8_t [0] = Ok [255] ∧
  dec uint8_t [1; 1] = Ok [1; 0] ∧ dec uint8_t [1; 0] = Ok [0; 255] ∧
  dec uint8_t [0; 0] = Ok [255; 255].
Proof. repeat split. Qed.

Example test_popcount :
  popcount uint8_t 1 [0] = Ok 0 ∧ popcount uint8_t 1 [1] = Ok 1 ∧
  popcount uint8_t 2 [3] = Ok 2 ∧ popcount uint8_t 2 [7] = Ok 2 ∧
  popcount uint8_t 9 [1; 1] = Ok 2.
Proof. repeat split. Qed.

Example test_operator_bitwise_and :
  and_assign uint8_t [2; 7] [3; 5] = Ok [2; 5].
Proof. reflexivity. Qed.

Example test_test :
  map (test uint8_t 11 true false [5; 144]) [10; 9; 8; 7; 6; 4; 3]
  = map Ok [true; false; true; true; false; true; false].
Proof. reflexivity. Qed.

Example test_set :
  (x ← set uint8_t 11 true false [0; 0] 1; x ← set uint8_t 11 true false x 3;
   x ← set uint8_t 11 true false x 7; x ← set uint8_t 11 true false x 10;
   set uint8_t 11 true false x 10) = Ok [4; 138].
Proof. reflexivity. Qed.

Example test_unset :
  (x ← unset uint8_t 11 true false [5; 138] 0; x ← unset uint8_t 11 true false x 1;
   unset uint8_t 11 true false x 8) = Ok [4; 136].
Proof. reflexivity. Qed.

(** C1: with [N] an exact multiple of [S] the code starts the count at 0
    instead of counting [bits[0]]: an 8-bit value in one [uint8_t] word with
    all bits set (every [test] true, 8 set logical bits) has [popcount] 0,
    and so has a 64-bit one in a [uint64_t] word; with two words only the
    second is counted. *)
Theorem popcount_skips_full_top_word :
  popcount uint8_t 8 [255] = Ok 0 ∧
  logical_popcount uint8_t 8 [255] = 8 ∧
  map (test uint8_t 8 true false [255]) [0; 1; 2; 3; 4; 5; 6; 7]
  = replicate 8 (Ok true) ∧
  popcount uint64_t 64 [18446744073709551615] = Ok 0 ∧
  popcount uint8_t 16 [255; 1] = Ok 1 ∧
  logical_popcount uint8_t 16 [255; 1] = 9.
Proof. repeat split. Qed.

(** C2: for a word type that is not promoted, [x <<= 0] on more than one
    word evaluates [bits[1] >> 64], a shift by the full width of the
    operand: the result is undefined, not the receiver unchanged. *)
Theorem shl_by_0_uint64_undefined :
  shl_assign uint64_t [1; 2] 0 = Undefined ∧
  shl uint64_t [1; 2] 0 = Undefined.
Proof. split; reflexivity. Qed.

(** C3: the same shift by the full width happens for every [pos] that is
    a multiple of [S] while a lower neighbour exists: 192 bits in three
    [uint64_t] words shifted by 64. *)
Theorem shl_by_64_uint64_undefined :
  shl_assign uint64_t [1; 2; 3] 64 = Undefined.
Proof. reflexivity. Qed.

(** C5 as stated fails: default initialisation ([uint_n<11> x;]) runs the
    defaulted constructor, which writes no word, so the words are
    indeterminate; with the words [0; 1] bit 0 tests true and [popcount]
    is 1. *)
Lemma default_init_keeps_memory :
  uint_n_default uint8_t 11 DefaultInit [0; 1] = [0; 1] ∧
  test uint8_t 11 true false (uint_n_default uint8_t 11 DefaultInit [0; 1]) 0 = Ok true ∧
  popcount uint8_t 11 (uint_n_default uint8_t 11 DefaultInit [0; 1]) = Ok 1.
Proof. repeat split. Qed.

(** C8 as stated fails: on a value whose bit 0 is set, [set(0)] followed by
    [unset(0)] leaves bit 0 clear, not at its original value. *)
Lemma set_then_unset_clears_set_bit :
  test uint8_t 8 true false [1] 0 = Ok true ∧
  set uint8_t 8 true false [1] 0 = Ok [1] ∧
  unset uint8_t 8 true false [1] 0 = Ok [0] ∧
  test uint8_t 8 true false [0] 0 = Ok false.
Proof. repeat split. Qed.

(** * The theorems at concrete values *)

Lemma word_index_in_bounds_witness :
  size [5; 144] = W uint8_t 11 ∧ 0 <= 10 < 11 ∧
  10 / S uint8_t <= W uint8_t 11 - 1 ∧
  word_index uint8_t [5; 144] 10 = W uint8_t 11 - 1 - 10 / S uint8_t ∧
  0 <= word_index uint8_t [5; 144] 10 <= W uint8_t 11 - 1 ∧
  tsl_uint_assert true false (10 <? 11) = Ok tt ∧
  (∃ w, at_ [5; 144] (word_index uint8_t [5; 144] 10) = Ok w) ∧
  (∃ b, test uint8_t 11 true false [5; 144] 10 = Ok b) ∧
  (∃ bits', set uint8_t 11 true false [5; 144] 10 = Ok bits' ∧
            size bits' = W uint8_t 11) ∧
  (∃ bits', unset uint8_t 11 true false [5; 144] 10 = Ok bits' ∧
            size bits' = W uint8_t 11).
Proof.
  split; [reflexivity |]. split; [lia |].
  apply (word_index_in_bounds uint8_t 11 true false);
    [lia | solve_fits | reflexivity | lia].
Defined.

Lemma word_packing_roundtrip_witness :
  1 < W uint8_t 11 ∧ size [5; 144] = W uint8_t 11 ∧ 0 <= 10 < 11 ∧
  ∃ bits,
    uint_n_args uint8_t 11 [5; 144] = Some bits ∧
    test uint8_t 11 true false bits 10
    = Ok (Z.testbit (word [5; 144] (W uint8_t 11 - 1 - 10 / S uint8_t))
                    (10 mod S uint8_t)) ∧
    (W uint8_t 11 - 1 - 10 / S uint8_t = 0 → 10 mod S uint8_t < first uint8_t 11).
Proof.
  split; [reflexivity |]. split; [reflexivity |]. split; [lia |].
  apply (word_packing_roundtrip uint8_t 11 true false);
    [lia | solve_fits | reflexivity | reflexivity | lia].
Defined.

Lemma set_unset_test_frame_witness :
  size [5; 138] = W uint8_t 11 ∧ 0 <= 3 < 11 ∧
  ∃ s u su,
    set uint8_t 11 true false [5; 138] 3 = Ok s ∧
    unset uint8_t 11 true false [5; 138] 3 = Ok u ∧
    unset uint8_t 11 true false s 3 = Ok su ∧
    test uint8_t 11 true false s 3 = Ok true ∧
    (∀ q, 0 <= q < 11 → q ≠ 3 →
          test uint8_t 11 true false s q = test uint8_t 11 true false [5; 138] q) ∧
    test uint8_t 11 true false u 3 = Ok false ∧
    (∀ q, 0 <= q < 11 → q ≠ 3 →
          test uint8_t 11 true false u q = test uint8_t 11 true false [5; 138] q) ∧
    test uint8_t 11 true false su 3 = Ok false ∧
    (∀ q, 0 <= q < 11 → q ≠ 3 →
          test uint8_t 11 true false su q = test uint8_t 11 true false [5; 138] q) ∧
    (test uint8_t 11 true false su 3 = test uint8_t 11 true false [5; 138] 3
     ↔ test uint8_t 11 true false [5; 138] 3 = Ok false).
Proof.
  split; [reflexivity |]. split; [lia |].
  apply (set_unset_test_frame uint8_t 11 true false);
    [lia | solve_fits | reflexivity | lia].
Defined.

Lemma and_wordwise_commutative_witness :
  wf uint8_t 10 [2; 7] ∧ wf uint8_t 10 [3; 5] ∧
  ∃ r, band uint8_t [2; 7] [3; 5] = Ok r ∧ band uint8_t [3; 5] [2; 7] = Ok r ∧
       wf uint8_t 10 r ∧
       (∀ i, 0 <= i < W uint8_t 10 →
             word r i = Z.land (word [2; 7] i) (word [3; 5] i)) ∧
       (∀ pos, 0 <= pos < 10 →
               ∃ a b, test uint8_t 10 true false [2; 7] pos = Ok a ∧
                      test uint8_t 10 true false [3; 5] pos = Ok b ∧
                      test uint8_t 10 true false r pos = Ok (a && b)).
Proof.
  split; [solve_wf |]. split; [solve_wf |].
  apply (and_wordwise_commutative uint8_t 10 true false);
    [lia | solve_fits | solve_wf | solve_wf].
Defined.

Lemma shl_ge_N_zero_witness :
  wf uint8_t 9 [1; 255] ∧ 9 <= 9 < 2 ^ SIZE_WIDTH ∧
  ∃ r, shl_assign uint8_t [1; 255] 9 = Ok r ∧ shl uint8_t [1; 255] 9 = Ok r ∧
       (∀ q, 0 <= q < 9 → test uint8_t 9 true false r q = Ok false) ∧
       popcount uint8_t 9 r = Ok 0.
Proof.
  split; [solve_wf |]. split; [solve_fits |].
  apply (shl_ge_N_zero uint8_t 9 true false);
    [lia | solve_fits | solve_wf | solve_fits].
Defined.

Lemma dec_ripple_borrow_witness :
  wf uint8_t 9 [0; 0] ∧
  ∃ r, dec uint8_t [0; 0] = Ok r ∧ wf uint8_t 9 r ∧
    logical uint8_t 9 r = (logical uint8_t 9 [0; 0] - 1) mod 2 ^ 9 ∧
    (∀ q, 0 <= q < 9 →
          test uint8_t 9 true false [0; 0] q
          = Ok (Z.testbit (logical uint8_t 9 [0; 0]) q) ∧
          test uint8_t 9 true false r q
          = Ok (Z.testbit ((logical uint8_t 9 [0; 0] - 1) mod 2 ^ 9) q)) ∧
    ((∀ i, 0 <= i < W uint8_t 9 → word [0; 0] i = 0) →
     ∀ q, 0 <= q < 9 → test uint8_t 9 true false r q = Ok true) ∧
    (∀ pre w, [0; 0] = pre ++ [w] →
       (w ≠ 0 → r = pre ++ [w - 1]) ∧
       (w = 0 → ∃ pre', dec uint8_t pre = Ok pre' ∧
                        r = pre' ++ [2 ^ S uint8_t - 1])).
Proof.
  split; [solve_wf |].
  apply (dec_ripple_borrow uint8_t 9 true false); [lia | solve_fits | solve_wf].
Defined.

Lemma value_init_all_zero_witness :
  0 < 11 ∧ 11 + S uint8_t - 1 < 2 ^ SIZE_WIDTH ∧
  wf uint8_t 11 (uint_n_default uint8_t 11 ValueInit [7; 7]) ∧
  (∀ i, 0 <= i < W uint8_t 11 →
        word (uint_n_default uint8_t 11 ValueInit [7; 7]) i = 0) ∧
  (∀ pos, 0 <= pos < 11 →
          test uint8_t 11 true false (uint_n_default uint8_t 11 ValueInit [7; 7]) pos
          = Ok false) ∧
  popcount uint8_t 11 (uint_n_default uint8_t 11 ValueInit [7; 7]) = Ok 0.
Proof.
  split; [lia |]. split; [solve_fits |].
  apply (value_init_all_zero uint8_t 11 true false); [lia | solve_fits].
Defined.

(** * The further properties at concrete values *)

Ltac solve_defined :=
  unfold shl_defined, S, promoted_width, W, sz, INT_WIDTH, SIZE_WIDTH, width;
  lia.

Ltac solve_not_multiple := vm_compute; intros Hmod; discriminate Hmod.

Ltac solve_range :=
  vm_compute; split; [intros Hcmp; discriminate Hcmp | reflexivity].

(** What the test suite expects [operator<<] to write to a fresh
    [std::ostringstream], and what a set width and a failed stream do. *)
Example test_to_string :
  (x ← uint_n_word uint8_t 2 1; os ← print uint8_t 2 ostringstream x;
   Ok (os_chars os)) = Ok ["0"; "1"]%char ∧
  (os ← print uint8_t 9 ostringstream [1; 5]; Ok (os_chars os))
  = Ok ["1"; "'"; "0"; "0"; "0"; "0"; "0"; "1"; "0"; "1"]%char ∧
  (x ← dec uint8_t [0; 0]; os ← print uint8_t 9 ostringstream x;
   Ok (os_chars os))
  = Ok ["1"; "'"; "1"; "1"; "1"; "1"; "1"; "1"; "1"; "1"]%char ∧
  (x ← shl_assign uint8_t [0; 169] 3; os ← print uint8_t 10 ostringstream x;
   Ok (os_chars os))
  = Ok ["0"; "1"; "'"; "0"; "1"; "0"; "0"; "1"; "0"; "0"; "0"]%char ∧
  (os ← print uint8_t 9
          {| os_chars := []; os_width := 4; os_fill := "*"%char;
             os_left := false; os_good := true |} [1; 5];
   Ok (os_chars os))
  = Ok ["*"; "*"; "*"; "1"; "'"; "0"; "0"; "0"; "0"; "0"; "1"; "0"; "1"]%char ∧
  (os ← print uint8_t 9
          {| os_chars := []; os_width := 0; os_fill := " "%char;
             os_left := false; os_good := false |} [1; 5];
   Ok (os_chars os)) = Ok [].
Proof. repeat split. Qed.

Lemma shl_logical_value_witness :
  wf uint8_t 10 [0; 169] ∧ shl_defined uint8_t 10 3 ∧
  ∃ r, shl_assign uint8_t [0; 169] 3 = Ok r ∧ wf uint8_t 10 r ∧
       logical uint8_t 10 r = (logical uint8_t 10 [0; 169] * 2 ^ 3) mod 2 ^ 10.
Proof.
  split; [solve_wf |]. split; [solve_defined |].
  apply (shl_logical_value uint8_t 10);
    [lia | solve_fits | solve_wf | solve_fits | solve_defined].
Defined.

Lemma shl_assign_undefined_iff_witness :
  wf uint64_t 128 [1; 2] ∧
  (shl_assign uint64_t [1; 2] 0 = Undefined ↔
   0 mod S uint64_t = 0 ∧ promoted_width uint64_t = S uint64_t ∧
   0 / S uint64_t + 1 < W uint64_t 128) ∧
  (shl_assign uint64_t [1; 2] 0 ≠ Undefined →
   ∃ r, shl_assign uint64_t [1; 2] 0 = Ok r ∧ wf uint64_t 128 r).
Proof.
  split; [solve_wf |].
  apply (shl_assign_undefined_iff uint64_t 128);
    [lia | solve_fits | solve_wf | solve_fits].
Defined.

Lemma shl_assign_compose_witness :
  wf uint8_t 10 [0; 169] ∧
  ∃ r1 r2 r3,
    shl_assign uint8_t [0; 169] 3 = Ok r1 ∧ shl_assign uint8_t r1 2 = Ok r2 ∧
    shl_assign uint8_t [0; 169] (3 + 2) = Ok r3 ∧
    ∀ q, 0 <= q < 10 → test uint8_t 10 true false r2 q = test uint8_t 10 true false r3 q.
Proof.
  split; [solve_wf |].
  apply (shl_assign_compose uint8_t 10 true false);
    [lia | solve_fits | solve_wf | lia | lia | solve_fits
     | solve_defined | solve_defined | solve_defined].
Defined.

Lemma popcount_counts_logical_bits_witness :
  wf uint8_t 2 [7] ∧ 2 mod S uint8_t ≠ 0 ∧
  popcount uint8_t 2 [7] = Ok (logical_popcount uint8_t 2 [7]) ∧
  0 <= logical_popcount uint8_t 2 [7] <= 2.
Proof.
  split; [solve_wf |]. split; [solve_not_multiple |].
  apply (popcount_counts_logical_bits uint8_t 2);
    [lia | solve_fits | solve_wf | solve_not_multiple].
Defined.

Lemma popcount_range_witness :
  wf uint8_t 8 [255] ∧
  ∃ c, popcount uint8_t 8 [255] = Ok c ∧
       0 <= c <= logical_popcount uint8_t 8 [255] ∧
       logical_popcount uint8_t 8 [255] <= 8.
Proof.
  split; [solve_wf |].
  apply (popcount_range uint8_t 8); [lia | solve_fits | solve_wf].
Defined.

Lemma uint_n_word_roundtrip_witness :
  0 <= 7 < 2 ^ S uint8_t ∧
  ∃ v, uint_n_word uint8_t 2 7 = Ok v ∧ wf uint8_t 2 v ∧
       (∀ i, 0 <= i < W uint8_t 2 - 1 → word v i = 0) ∧
       (∀ pos, 0 <= pos < 2 → test uint8_t 2 true false v pos = Ok (Z.testbit 7 pos)) ∧
       logical uint8_t 2 v = 7 mod 2 ^ 2.
Proof.
  split; [solve_range |].
  apply (uint_n_word_roundtrip uint8_t 2 true false);
    [lia | solve_fits | solve_range].
Defined.

Lemma debug_rejects_out_of_range_witness :
  test uint8_t 11 true false [5; 144] 11 = AssertFailed ∧
  set uint8_t 11 true false [5; 144] 11 = AssertFailed ∧
  unset uint8_t 11 true false [5; 144] 11 = AssertFailed.
Proof.
  apply (debug_rejects_out_of_range uint8_t 11 true false);
    [reflexivity | reflexivity | lia].
Defined.

Lemma release_beyond_storage_undefined_witness :
  size [5; 144] = W uint8_t 11 ∧
  W uint8_t 11 * S uint8_t <= 16 < 2 ^ SIZE_WIDTH ∧
  test uint8_t 11 false false [5; 144] 16 = Undefined ∧
  set uint8_t 11 false false [5; 144] 16 = Undefined ∧
  unset uint8_t 11 false false [5; 144] 16 = Undefined.
Proof.
  split; [reflexivity |]. split; [solve_range |].
  apply (release_beyond_storage_undefined uint8_t 11 false false);
    [lia | solve_fits | reflexivity | reflexivity | solve_range].
Defined.

Lemma release_padding_position_witness :
  size [5; 144] = W uint8_t 11 ∧ 11 <= 12 < W uint8_t 11 * S uint8_t ∧
  first uint8_t 11 <= 12 mod S uint8_t ∧
  test uint8_t 11 false false [5; 144] 12
  = Ok (Z.testbit (word [5; 144] 0) (12 mod S uint8_t)) ∧
  ∃ s u,
    set uint8_t 11 false false [5; 144] 12 = Ok s ∧
    unset uint8_t 11 false false [5; 144] 12 = Ok u ∧
    size s = W uint8_t 11 ∧ size u = W uint8_t 11 ∧
    test uint8_t 11 false false s 12 = Ok true ∧
    test uint8_t 11 false false u 12 = Ok false ∧
    (∀ i k, 0 <= i < W uint8_t 11 → 0 <= k < S uint8_t →
       Z.testbit (word s i) k
       = Z.testbit (word [5; 144] i) k
         || ((i =? 0) && (k =? 12 mod S uint8_t))) ∧
    (∀ i k, 0 <= i < W uint8_t 11 → 0 <= k < S uint8_t →
       Z.testbit (word u i) k
       = Z.testbit (word [5; 144] i) k
         && negb ((i =? 0) && (k =? 12 mod S uint8_t))) ∧
    (∀ q, 0 <= q < 11 →
          test uint8_t 11 false false s q = test uint8_t 11 false false [5; 144] q ∧
          test uint8_t 11 false false u q = test uint8_t 11 false false [5; 144] q).
Proof.
  split; [reflexivity |]. split; [solve_range |].
  apply (release_padding_position uint8_t 11 false false);
    [lia | solve_fits | reflexivity | reflexivity | solve_range].
Defined.

Lemma set_unset_idempotent_witness :
  wf uint8_t 11 [5; 138] ∧ 0 <= 3 < 11 ∧
  ∃ s u, set uint8_t 11 true false [5; 138] 3 = Ok s ∧ set uint8_t 11 true false s 3 = Ok s ∧
         unset uint8_t 11 true false [5; 138] 3 = Ok u ∧
         unset uint8_t 11 true false u 3 = Ok u.
Proof.
  split; [solve_wf |]. split; [lia |].
  apply (set_unset_idempotent uint8_t 11 true false);
    [lia | solve_fits | solve_wf | lia].
Defined.

Lemma set_unset_commute_witness :
  wf uint8_t 11 [5; 138] ∧
  (∃ r, (s ← set uint8_t 11 true false [5; 138] 3; set uint8_t 11 true false s 9) = Ok r ∧
        (s ← set uint8_t 11 true false [5; 138] 9; set uint8_t 11 true false s 3) = Ok r) ∧
  (∃ r, (u ← unset uint8_t 11 true false [5; 138] 3; unset uint8_t 11 true false u 9) = Ok r ∧
        (u ← unset uint8_t 11 true false [5; 138] 9; unset uint8_t 11 true false u 3) = Ok r) ∧
  (∃ r, (s ← set uint8_t 11 true false [5; 138] 3; unset uint8_t 11 true false s 9) = Ok r ∧
        (u ← unset uint8_t 11 true false [5; 138] 9; set uint8_t 11 true false u 3) = Ok r).
Proof.
  split; [solve_wf |].
  apply (set_unset_commute uint8_t 11 true false);
    [lia | solve_fits | solve_wf | lia | lia | lia].
Defined.

Lemma popcount_after_set_unset_witness :
  wf uint8_t 11 [5; 138] ∧ 11 mod S uint8_t ≠ 0 ∧
  ∃ b c s u,
    test uint8_t 11 true false [5; 138] 2 = Ok b ∧ popcount uint8_t 11 [5; 138] = Ok c ∧
    set uint8_t 11 true false [5; 138] 2 = Ok s ∧
    popcount uint8_t 11 s = Ok (c + if b then 0 else 1) ∧
    unset uint8_t 11 true false [5; 138] 2 = Ok u ∧
    popcount uint8_t 11 u = Ok (c - if b then 1 else 0).
Proof.
  split; [solve_wf |]. split; [solve_not_multiple |].
  apply (popcount_after_set_unset uint8_t 11 true false);
    [lia | solve_fits | solve_wf | lia | solve_not_multiple].
Defined.

Lemma and_idempotent_zero_witness :
  wf uint8_t 10 [2; 7] ∧
  band uint8_t [2; 7] [2; 7] = Ok [2; 7] ∧
  band uint8_t [2; 7] (uint_n_default uint8_t 10 ValueInit [])
  = Ok (uint_n_default uint8_t 10 ValueInit []) ∧
  band uint8_t (uint_n_default uint8_t 10 ValueInit []) [2; 7]
  = Ok (uint_n_default uint8_t 10 ValueInit []).
Proof.
  split; [solve_wf |].
  apply (and_idempotent_zero uint8_t 10); [lia | solve_fits | solve_wf].
Defined.

Lemma and_associative_witness :
  wf uint8_t 10 [2; 7] ∧ wf uint8_t 10 [3; 5] ∧ wf uint8_t 10 [1; 6] ∧
  ∃ r, (xy ← band uint8_t [2; 7] [3; 5]; band uint8_t xy [1; 6]) = Ok r ∧
       (yz ← band uint8_t [3; 5] [1; 6]; band uint8_t [2; 7] yz) = Ok r.
Proof.
  split; [solve_wf |]. split; [solve_wf |]. split; [solve_wf |].
  apply (and_associative uint8_t 10);
    [lia | solve_fits | solve_wf | solve_wf | solve_wf].
Defined.

Lemma dec_stored_value_witness :
  wf uint8_t 9 [1; 0] ∧
  (∃ r, dec uint8_t [1; 0] = Ok r ∧ wf uint8_t 9 r ∧
        value uint8_t r
        = (value uint8_t [1; 0] - 1) mod 2 ^ (S uint8_t * W uint8_t 9)) ∧
  dec uint8_t (replicate (Z.to_nat (W uint8_t 9)) 0)
  = Ok (replicate (Z.to_nat (W uint8_t 9)) (2 ^ S uint8_t - 1)).
Proof.
  split; [solve_wf |].
  apply (dec_stored_value uint8_t 9); [lia | solve_fits | solve_wf].
Defined.

